(** * OpenRA analysis utilities: the OpenGL version-string classifier

    A shallow embedding of the pure part of [utils.py]: the class
    [GLParser], the generator [parse_gl_versions] and [parse_runtime].

    Conventions of the model.
    - A Python [str] is a [list ascii]: a sequence of code points below
      256.  On that range the regex class [\d] is exactly [0-9] and
      [str.split()] separates on the code points 9-13, 28-32, 133 and 160.
    - A Python [int] is a [Z]; turning it into text fails, as in CPython
      from 3.11 on with its default settings, when the text would have
      more than 4300 digits.  A Python [float] is represented by the
      text [str] gives it, the only thing the code asks of a float.
    - A raised exception is the [Raise] case of [result].
    - The [re] module is modelled by a backtracking matcher in
      continuation-passing style, over the constructs the six patterns
      of [GLParser] use. *)

From Stdlib Require Import Ascii String DecimalString DecimalPos DecimalZ.
From Stdlib Require Import ZArith Lia Bool Arith PeanoNat List.
From Stdlib Require Import Permutation Sorted.
Import ListNotations.

Local Open Scope list_scope.

(** ** Python strings *)

Definition str := list ascii.

Definition lit (s : string) : str := list_ascii_of_string s.

(** [p] is a prefix of [s]: [s.startswith(p)]. *)
Fixpoint starts_with (p s : str) : bool :=
  match p, s with
  | [], _ => true
  | _ :: _, [] => false
  | a :: p', b :: s' => Ascii.eqb a b && starts_with p' s'
  end.

(** [p in s] for two strings: [p] occurs somewhere in [s]. *)
Fixpoint contains (p s : str) : bool :=
  starts_with p s ||
  match s with
  | [] => false
  | _ :: s' => contains p s'
  end.

(** [\d] on code points below 256. *)
Definition is_digit (c : ascii) : bool :=
  let n := nat_of_ascii c in (48 <=? n) && (n <=? 57).

(** [c.isspace()] on code points below 256. *)
Definition is_space (c : ascii) : bool :=
  let n := nat_of_ascii c in
  ((9 <=? n) && (n <=? 13)) || ((28 <=? n) && (n <=? 32))
  || (n =? 133) || (n =? 160).

(** ** Exceptions and results *)

Inductive exn : Type :=
| NotImplementedError (msg : str)
| ValueError (msg : str)
| IndexError
| StopIteration.

Inductive result (A : Type) : Type :=
| Ok (a : A)
| Raise (e : exn).

Arguments Ok {A} a.
Arguments Raise {A} e.

(** An exception raised by [x] passes through. *)
Definition rbind {A B : Type} (x : result A) (f : A -> result B) : result B :=
  match x with
  | Ok a => f a
  | Raise e => Raise e
  end.

Notation "'let*' x ':=' e 'in' k" := (rbind e (fun x => k))
  (at level 10, x name, e at level 100, k at level 200).

(** ** The [re] module

    The constructs of the six patterns: a literal character, [\d],
    concatenation, greedy [+] and [?], a counted repetition [{n}] and a
    capturing group. *)

Inductive regex : Type :=
| Eps
| Lit (c : ascii)
| Digit
| Cat (r1 r2 : regex)
| Plus (r : regex)
| Opt (r : regex)
| Times (n : nat) (r : regex)
| Group (name : string) (r : regex).

(** The matcher's state: the text still to read and the groups captured
    so far (latest first). *)
Record mstate : Type := MState {
  rest : str;
  groups : list (string * str)
}.

(** The text read between two states of one run. *)
Definition text_between (before after : str) : str :=
  firstn (length before - length after) before.

Definition or_else {A : Type} (x : option A) (y : option A) : option A :=
  match x with
  | Some a => Some a
  | None => y
  end.

(** [m r st k]: match [r] at [st], then the continuation [k]; the first
    alternative that lets [k] succeed wins, and greedy operators try the
    longer alternative first.  An iteration of [+] that reads nothing is
    not repeated, so every repeated iteration shortens the text left and
    the fuel, one more than the length of that text, is never used up
    (see [plus_loop_digit] for [\d+]). *)
Fixpoint m (r : regex) (st : mstate) (k : mstate -> option mstate)
  {struct r} : option mstate :=
  match r with
  | Eps => k st
  | Lit c =>
      match rest st with
      | c' :: t => if Ascii.eqb c c' then k (MState t (groups st)) else None
      | [] => None
      end
  | Digit =>
      match rest st with
      | c' :: t => if is_digit c' then k (MState t (groups st)) else None
      | [] => None
      end
  | Cat r1 r2 => m r1 st (fun st' => m r2 st' k)
  | Opt r1 => or_else (m r1 st k) (k st)
  | Plus r1 =>
      (fix loop (fuel : nat) (st0 : mstate) {struct fuel} : option mstate :=
         match fuel with
         | O => None
         | S fuel' =>
             m r1 st0 (fun st1 =>
               or_else
                 (if length (rest st1) <? length (rest st0)
                  then loop fuel' st1 else None)
                 (k st1))
         end) (S (length (rest st))) st
  | Times n r1 =>
      (fix rep (n0 : nat) (st0 : mstate) {struct n0} : option mstate :=
         match n0 with
         | O => k st0
         | S n' => m r1 st0 (fun st1 => rep n' st1)
         end) n st
  | Group name r1 =>
      m r1 st (fun st1 =>
        k (MState (rest st1)
                  ((name, text_between (rest st) (rest st1)) :: groups st1)))
  end.

(** A match object: [group(0)] and the captured groups. *)
Record match_obj : Type := MatchObj {
  group0 : str;
  captures : list (string * str)
}.

Fixpoint lookup (name : string) (gs : list (string * str)) : option str :=
  match gs with
  | [] => None
  | (n, v) :: gs' => if String.eqb name n then Some v else lookup name gs'
  end.

(** [match.group(name)]; the patterns here read only groups that took
    part in the match. *)
Definition group (name : string) (mo : match_obj) : option str :=
  lookup name (captures mo).

(** [pattern.match(s)]: a match that starts at the beginning of [s]. *)
Definition match_at (r : regex) (s : str) : option match_obj :=
  match m r (MState s []) Some with
  | Some st => Some (MatchObj (text_between s (rest st)) (groups st))
  | None => None
  end.

(** [pattern.search(s)]: the match at the first start position that has
    one, the end of the string included. *)
Fixpoint search (r : regex) (s : str) : option match_obj :=
  match match_at r s with
  | Some mo => Some mo
  | None =>
      match s with
      | [] => None
      | _ :: t => search r t
      end
  end.

(** A literal string as a pattern. *)
Fixpoint Str (s : str) : regex :=
  match s with
  | [] => Eps
  | c :: t => Cat (Lit c) (Str t)
  end.

Declare Scope regex_scope.
Delimit Scope regex_scope with re.
Notation "r1 ;; r2" := (Cat r1 r2) (at level 61, right associativity) : regex_scope.

Definition digits : regex := Plus Digit.
Definition dot : regex := Lit "."%char.

Local Open Scope regex_scope.

(** ** [GLParser] *)

Record OpenGLDescriptor : Type := mkOpenGLDescriptor {
  version : option str;
  driver : option str;
  driver_version : option str
}.

(** The values [parse] is called on. *)
Inductive pyval : Type :=
| PyInt (n : Z)
| PyFloat (text : str)
| PyStr (s : str).

(** The decimal text of an integer, with a minus sign when it is
    negative. *)
Definition str_int (n : Z) : str := lit (NilZero.string_of_int (Z.to_int n)).

(** The decimal digits of an integer, without its sign. *)
Definition int_digits (n : Z) : Decimal.uint :=
  match Z.to_int n with
  | Decimal.Pos u => u
  | Decimal.Neg u => u
  end.

(** [sys.get_int_max_str_digits()], at its default. *)
Definition int_max_str_digits : nat := 4300.

(** The message of the [ValueError] the conversion raises beyond it. *)
Definition int_limit_message : str :=
  lit "Exceeds the limit (4300 digits) for integer string conversion; use sys.set_int_max_str_digits() to increase the limit".

(** ['{}'.format(n)] for an [int]: its decimal text, unless that has more
    digits than the interpreter converts. *)
Definition format_int (n : Z) : result str :=
  if Decimal.nb_digits (int_digits n) <=? int_max_str_digits
  then Ok (str_int n)
  else Raise (ValueError int_limit_message).

(** The integer written with [k] digits 1, and its opposite. *)
Definition ones (k : nat) : Decimal.uint := Nat.iter k Decimal.D1 Decimal.Nil.

Definition repunit (k : nat) : Z := Z.of_int (Decimal.Pos (ones k)).

Definition neg_repunit (k : nat) : Z := Z.of_int (Decimal.Neg (ones k)).

(** [str(f)] for a [float]. *)
Definition str_float (text : str) : str := text.

(** Truth value of an optional string: [None] and [''] are false. *)
Definition truthy (v : option str) : bool :=
  match v with
  | Some (_ :: _) => true
  | _ => false
  end.

Module GLParser.

(** [\d+\.\d+(\.\d+)?] *)
Definition opengl_version_re : regex :=
  digits ;; dot ;; digits ;; Opt (Group "1" (dot ;; digits)).

(** [\d+\.\d+\.\d+\.\d+] *)
Definition compat_version_re : regex :=
  digits ;; dot ;; digits ;; dot ;; digits ;; dot ;; digits.

(** [\d+\.\d+\.\d+] *)
Definition mesa_version_re : regex :=
  digits ;; dot ;; digits ;; dot ;; digits.

(** [INTEL-(?P<version>\d+\.\d+\.\d+)] *)
Definition intel_version_re : regex :=
  Str (lit "INTEL-") ;;
  Group "version" (digits ;; dot ;; digits ;; dot ;; digits).

(** [NVIDIA (?P<version>\d{3}\.\d+)] *)
Definition nvidia_version_re : regex :=
  Str (lit "NVIDIA ") ;;
  Group "version" (Times 3 Digit ;; dot ;; digits).

(** [Build (?P<version>\d+\.\d+\.\d+\.\d+)] *)
Definition build_version_re : regex :=
  Str (lit "Build ") ;;
  Group "version" (digits ;; dot ;; digits ;; dot ;; digits ;; dot ;; digits).

Definition _opengl_version (s : str) : option str :=
  match search opengl_version_re s with
  | Some mo => Some (group0 mo)
  | None => None
  end.

Definition parse_build_version (s : str) : OpenGLDescriptor :=
  let driver_version :=
    match search build_version_re s with
    | Some mo => group "version" mo
    | None => None
    end in
  mkOpenGLDescriptor (_opengl_version s) (Some (lit "build")) driver_version.

Definition parse_nvidia (s : str) : OpenGLDescriptor :=
  let nvidia_version :=
    match search nvidia_version_re s with
    | Some mo => group "version" mo
    | None => None
    end in
  mkOpenGLDescriptor (_opengl_version s) (Some (lit "nvidia")) nvidia_version.

Definition parse_intel (s : str) : OpenGLDescriptor :=
  let intel_version :=
    match search intel_version_re s with
    | Some mo => group "version" mo
    | None => None
    end in
  mkOpenGLDescriptor (_opengl_version s) (Some (lit "intel")) intel_version.

Definition parse_mesa (s : str) : OpenGLDescriptor :=
  let driver_version :=
    match search mesa_version_re s with
    | Some mo => Some (group0 mo)
    | None => None
    end in
  mkOpenGLDescriptor (_opengl_version s) (Some (lit "mesa")) driver_version.

Definition parse_compatability_profile_context (s : str) : OpenGLDescriptor :=
  let driver_version :=
    match search compat_version_re s with
    | Some mo => Some (group0 mo)
    | None => None
    end in
  mkOpenGLDescriptor (_opengl_version s) (Some (lit "compat")) driver_version.

Definition parse (v : pyval) : result OpenGLDescriptor :=
  match v with
  | PyInt n =>
      let* text := format_int n in
      Ok (mkOpenGLDescriptor (Some (text ++ lit ".0.0")) None None)
  | PyFloat f =>
      Ok (mkOpenGLDescriptor (Some (str_float f)) None None)
  | PyStr s =>
      if contains (lit "Compatibility Profile Context") s then
        Ok (parse_compatability_profile_context s)
      else if contains (lit "Mesa") s then Ok (parse_mesa s)
      else if contains (lit "NVIDIA") s then Ok (parse_nvidia s)
      else if contains (lit "INTEL") s then Ok (parse_intel s)
      else if contains (lit "Build") s then Ok (parse_build_version s)
      else
        let gl_version := _opengl_version s in
        if truthy gl_version then
          Ok (mkOpenGLDescriptor gl_version (Some (lit "generic")) None)
        else
          Raise (NotImplementedError (lit "Unimplemented for " ++ s))
  end.

End GLParser.

(** ** [parse_gl_versions]: a generator

    A generator object is either suspended, holding the inputs it has not
    read yet, or finished.  Creating it runs nothing; [next] runs the body
    up to the next [yield], to the end of the loop, or to an exception,
    after which the generator is finished. *)

Inductive generator : Type :=
| Suspended (remaining : list pyval)
| Finished.

Definition parse_gl_versions (gl_version_strings : list pyval) : generator :=
  Suspended gl_version_strings.

Definition next (g : generator) : result OpenGLDescriptor * generator :=
  match g with
  | Suspended [] => (Raise StopIteration, Finished)
  | Suspended (entry :: remaining) =>
      match GLParser.parse entry with
      | Ok d => (Ok d, Suspended remaining)
      | Raise e => (Raise e, Finished)
      end
  | Finished => (Raise StopIteration, Finished)
  end.

(** [n] successive calls of [next]: what each returned or raised. *)
Fixpoint pulls (n : nat) (g : generator)
  : list (result OpenGLDescriptor) * generator :=
  match n with
  | O => ([], g)
  | S n' =>
      let (r, g') := next g in
      let (rs, g'') := pulls n' g' in
      (r :: rs, g'')
  end.

(** ** [parse_runtime] *)

(** The namedtuple [Runtime]; its field [version] is [runtime_version]
    here, [version] being the field of [OpenGLDescriptor]. *)
Record Runtime : Type := mkRuntime {
  provider : str;
  runtime_version : str
}.

(** [value.split()]: the maximal runs of characters that are not
    whitespace, in order.  [cur] is the current run, reversed. *)
Fixpoint split_from (cur : str) (s : str) : list str :=
  match s with
  | [] => match cur with [] => [] | _ :: _ => [rev cur] end
  | c :: t =>
      if is_space c then
        match cur with
        | [] => split_from [] t
        | _ :: _ => rev cur :: split_from [] t
        end
      else split_from (c :: cur) t
  end.

Definition split (s : str) : list str := split_from [] s.

(** [l[i]] for [i >= 0]. *)
Definition index {A : Type} (l : list A) (i : nat) : result A :=
  match nth_error l i with
  | Some a => Ok a
  | None => Raise IndexError
  end.

Definition parse_mono_runtime (value : str) : result Runtime :=
  let* version := index (split value) 1 in
  Ok (mkRuntime (lit "mono") version).

Definition parse_dotnet_runtime (value : str) : result Runtime :=
  let* version := index (split value) 2 in
  Ok (mkRuntime (lit ".net") version).

Definition parse_runtime (runtime : option str) : result (option Runtime) :=
  match runtime with
  | None => Ok None
  | Some runtime =>
      if contains (lit "Mono") runtime then
        let* r := parse_mono_runtime runtime in Ok (Some r)
      else if contains (lit ".NET") runtime then
        let* r := parse_dotnet_runtime runtime in Ok (Some r)
      else Raise (ValueError (lit "Invalid runtime value: " ++ runtime))
  end.

(** * Deterministic readers

    What the matcher does on the six patterns, written without
    backtracking.  The lemmas further down prove that the matcher and
    these readers agree. *)

(** ** Digit runs *)

(** The longest prefix of digits and what follows it. *)
Fixpoint take_digits (s : str) : str :=
  match s with
  | c :: t => if is_digit c then c :: take_digits t else []
  | [] => []
  end.

Fixpoint drop_digits (s : str) : str :=
  match s with
  | c :: t => if is_digit c then drop_digits t else s
  | [] => []
  end.

(** [\d+] written out: read a digit, prefer to go on, else stop here. *)
Fixpoint plus_digit (s : str) (g : list (string * str))
  (k : mstate -> option mstate) : option mstate :=
  match s with
  | c :: t =>
      if is_digit c then or_else (plus_digit t g k) (k (MState t g)) else None
  | [] => None
  end.

(** A continuation that fails whenever the next character is a digit. *)
Definition no_digit_next (k : mstate -> option mstate) : Prop :=
  forall c t g, is_digit c = true -> k (MState (c :: t) g) = None.

(** ** Numbers, dots and literals *)

Definition eat_number (s : str) : option str :=
  match take_digits s with
  | [] => None
  | _ :: _ => Some (drop_digits s)
  end.

Definition eat_dot (s : str) : option str :=
  match s with
  | c :: t => if Ascii.eqb "." c then Some t else None
  | [] => None
  end.

(** [n + 1] numbers separated by dots. *)
Fixpoint eat_dotted (n : nat) (s : str) : option str :=
  match n with
  | O => eat_number s
  | S n' =>
      match eat_number s with
      | Some s1 =>
          match eat_dot s1 with
          | Some s2 => eat_dotted n' s2
          | None => None
          end
      | None => None
      end
  end.

(** The pattern of [n + 1] numbers separated by dots: [mesa_version_re]
    is [dotted_re 2] and [compat_version_re] is [dotted_re 3]. *)
Fixpoint dotted_re (n : nat) : regex :=
  match n with
  | O => digits
  | S n' => digits ;; dot ;; dotted_re n'
  end.

(** A literal prefix. *)
Fixpoint eat_lit (p s : str) : option str :=
  match p with
  | [] => Some s
  | a :: p' =>
      match s with
      | b :: s' => if Ascii.eqb a b then eat_lit p' s' else None
      | [] => None
      end
  end.

(** ** The six patterns *)

Definition bind {A B : Type} (x : option A) (f : A -> option B) : option B :=
  match x with
  | Some a => f a
  | None => None
  end.

(** [\d+\.\d+(\.\d+)?] *)
Definition eat_version (s : str) : option str :=
  match eat_dotted 1 s with
  | Some r =>
      match bind (eat_dot r) eat_number with
      | Some r' => Some r'
      | None => Some r
      end
  | None => None
  end.

Definition eat_digit (s : str) : option str :=
  match s with
  | c :: t => if is_digit c then Some t else None
  | [] => None
  end.

(** [\d{3}\.\d+] *)
Definition eat_nvidia_number (s : str) : option str :=
  bind (bind (bind (bind (eat_digit s) eat_digit) eat_digit) eat_dot) eat_number.

(** The first start position at which [eat] reads something, and the text
    it reads there. *)
Fixpoint find_first (eat : str -> option str) (s : str) : option str :=
  match eat s with
  | Some r => Some (text_between s r)
  | None =>
      match s with
      | [] => None
      | _ :: t => find_first eat t
      end
  end.

(** * What the patterns mean

    The shapes of text the patterns describe, stated without the matcher,
    and what it is for a text to be the match a search returns. *)

Definition is_number (d : str) : Prop :=
  d <> [] /\ forallb is_digit d = true.

(** [n + 1] numbers separated by dots. *)
Fixpoint dotted_text (n : nat) (v : str) : Prop :=
  match n with
  | O => is_number v
  | S n' =>
      exists d v', is_number d /\ dotted_text n' v' /\ v = d ++ "."%char :: v'
  end.

(** [MAJOR.MINOR] or [MAJOR.MINOR.PATCH]. *)
Definition version_text (v : str) : Prop :=
  dotted_text 1 v \/ dotted_text 2 v.

(** Three digits, a dot, a number. *)
Definition nvidia_text (v : str) : Prop :=
  exists a b c d,
    is_digit a = true /\ is_digit b = true /\ is_digit c = true /\
    is_number d /\ v = a :: b :: c :: "."%char :: d.

(** A literal followed by a text of shape [P]. *)
Definition prefixed (p : str) (P : str -> Prop) (v : str) : Prop :=
  exists num, P num /\ v = p ++ num.

Definition prefix_of (v s : str) : Prop := exists post, s = v ++ post.

Definition occurs (P : str -> Prop) (s : str) : Prop :=
  exists pre v post, s = pre ++ v ++ post /\ P v.

(** [v] is what a search for [P] in [s] returns: [v] has the shape, no
    text of the shape starts further left, and none that starts at the
    same place is longer. *)
Definition leftmost_match (P : str -> Prop) (s v : str) : Prop :=
  exists pre post,
    s = pre ++ v ++ post /\ P v /\
    (forall v', P v' -> prefix_of v' (v ++ post) -> length v' <= length v) /\
    (forall pre1 pre2 v', pre = pre1 ++ pre2 -> pre2 <> [] -> P v' ->
       ~ prefix_of v' (pre2 ++ v ++ post)).

(** [eat] reads the longest text of shape [P] at the start of a string. *)
Record reads (P : str -> Prop) (eat : str -> option str) : Prop := {
  reads_sound : forall s r, eat s = Some r -> exists v, s = v ++ r /\ P v;
  reads_longest : forall v post, P v ->
    exists r, eat (v ++ post) = Some r /\ length r <= length post
}.

(** * The families *)

Inductive family : Type := Compat | Mesa | Nvidia | Intel | Build.

(** The order in which [parse] looks for the keywords. *)
Definition families : list family := [Compat; Mesa; Nvidia; Intel; Build].

Definition keyword (f : family) : str :=
  match f with
  | Compat => lit "Compatibility Profile Context"
  | Mesa => lit "Mesa"
  | Nvidia => lit "NVIDIA"
  | Intel => lit "INTEL"
  | Build => lit "Build"
  end.

Definition family_name (f : family) : str :=
  match f with
  | Compat => lit "compat"
  | Mesa => lit "mesa"
  | Nvidia => lit "nvidia"
  | Intel => lit "intel"
  | Build => lit "build"
  end.

Definition matcher (f : family) : str -> OpenGLDescriptor :=
  match f with
  | Compat => GLParser.parse_compatability_profile_context
  | Mesa => GLParser.parse_mesa
  | Nvidia => GLParser.parse_nvidia
  | Intel => GLParser.parse_intel
  | Build => GLParser.parse_build_version
  end.

(** The literal that precedes the driver version in a family's pattern. *)
Definition driver_prefix (f : family) : str :=
  match f with
  | Compat | Mesa => []
  | Nvidia => lit "NVIDIA "
  | Intel => lit "INTEL-"
  | Build => lit "Build "
  end.

(** The shape of the driver version in a family's pattern. *)
Definition driver_number (f : family) : str -> Prop :=
  match f with
  | Compat | Build => dotted_text 3
  | Mesa | Intel => dotted_text 2
  | Nvidia => nvidia_text
  end.

(** The text a family's pattern matches. *)
Definition driver_pattern (f : family) : str -> Prop :=
  prefixed (driver_prefix f) (driver_number f).

Definition eat_driver_number (f : family) : str -> option str :=
  match f with
  | Compat | Build => eat_dotted 3
  | Mesa | Intel => eat_dotted 2
  | Nvidia => eat_nvidia_number
  end.

Definition eat_driver (f : family) (s : str) : option str :=
  bind (eat_lit (driver_prefix f) s) (eat_driver_number f).

(** The family [parse] dispatches a string to: the first whose keyword
    the string contains. *)
Definition dispatch (s : str) : option family :=
  find (fun f => contains (keyword f) s) families.

(** ** Substrings *)

(** [p] occurs in [s], at any position, character for character. *)
Definition substring (p s : str) : Prop :=
  exists pre post, s = pre ++ p ++ post.

(** ** Well-formed inputs *)

(** A float is given by the text [str] returns for it, which is never
    empty. *)
Definition well_formed (x : pyval) : bool :=
  match x with
  | PyFloat [] => false
  | _ => true
  end.

(** ** Whitespace-delimited tokens *)

Definition all_space (w : str) : Prop := forallb is_space w = true.

Definition no_space (t : str) : Prop :=
  forallb (fun c => negb (is_space c)) t = true.

(** Nothing follows, or whitespace does. *)
Definition token_end (s : str) : Prop :=
  s = [] \/ exists c r, s = c :: r /\ is_space c = true.

(** [toks] are the maximal runs of non-whitespace characters of a string,
    from left to right. *)
Inductive tokens_of : str -> list str -> Prop :=
| tokens_none (w : str) : all_space w -> tokens_of w []
| tokens_cons (w t s : str) (toks : list str) :
    all_space w -> t <> [] -> no_space t -> token_end s ->
    tokens_of s toks -> tokens_of (w ++ t ++ s) (t :: toks).

(** ** Components of a version text *)

(** The texts between the dots of a string: [s.split('.')]. *)
Fixpoint components (s : str) : list str :=
  match s with
  | [] => [[]]
  | c :: t =>
      if Ascii.eqb "." c then [] :: components t
      else
        match components t with
        | x :: xs => (c :: x) :: xs
        | [] => [[c]]
        end
  end.

(** ['.'.join(l)] *)
Fixpoint join_dots (l : list str) : str :=
  match l with
  | [] => []
  | [x] => x
  | x :: xs => x ++ "."%char :: join_dots xs
  end.

(** The first three components of a version text, or all of them when
    there are fewer. *)
Definition first_three (dv : str) : str :=
  join_dots (firstn 3 (components dv)).

Definition no_digit (p : str) : bool :=
  forallb (fun c => negb (is_digit c)) p.

(** Every text of shape [P] in [pre ++ mid ++ post] lies within [mid]. *)
Definition only_within (P : str -> Prop) (pre mid post : str) : Prop :=
  forall pre' v post', pre ++ mid ++ post = pre' ++ v ++ post' -> P v ->
    length pre <= length pre' /\ length post <= length post'.

(** * Consuming the generator *)

(** [list(g)]: [next] is called until it raises [StopIteration]; any
    other exception passes through and the values read so far are lost.
    [None] stands for fuel used up, which one more call than there are
    inputs left never is (see [consume_all]). *)
Fixpoint consume (fuel : nat) (g : generator)
  : option (result (list OpenGLDescriptor)) :=
  match fuel with
  | O => None
  | S fuel' =>
      match next g with
      | (Ok d, g') =>
          match consume fuel' g' with
          | Some (Ok ds) => Some (Ok (d :: ds))
          | other => other
          end
      | (Raise StopIteration, _) => Some (Ok [])
      | (Raise e, _) => Some (Raise e)
      end
  end.

(** * The map-name cache and the play counts

    The rest of [utils.py] works on dicts, on the network and on a cache
    file.  The network and the file are the state of the world. *)

(** ** Python dicts *)

Class EqDec (K : Type) : Type :=
  eq_dec : forall x y : K, {x = y} + {x <> y}.

#[global] Instance str_EqDec : EqDec str := list_eq_dec ascii_dec.

#[global] Instance Z_EqDec : EqDec Z := Z.eq_dec.

(** A dict is the list of its items in insertion order; the keys are
    distinct. *)
Definition dict (K V : Type) : Type := list (K * V).

(** [d.get(k)], and [k in d] when the result is not [None]. *)
Fixpoint dict_get {K V : Type} `{EqDec K} (k : K) (d : dict K V) : option V :=
  match d with
  | [] => None
  | (k', v) :: d' => if eq_dec k k' then Some v else dict_get k d'
  end.

(** [d[k] = v]: a key already present keeps its place. *)
Fixpoint dict_set {K V : Type} `{EqDec K} (k : K) (v : V) (d : dict K V)
  : dict K V :=
  match d with
  | [] => [(k, v)]
  | (k', v') :: d' =>
      if eq_dec k k' then (k, v) :: d' else (k', v') :: dict_set k v d'
  end.

(** [list(d.keys())] *)
Definition dict_keys {K V : Type} (d : dict K V) : list K := map fst d.

(** ** Results with exceptions of a given type *)

Inductive outcome (E A : Type) : Type :=
| Return (a : A)
| Throw (e : E).

Arguments Return {E A} a.
Arguments Throw {E A} e.

(** ** The cache of map names

    [fetch_map_name] asks the network.  [fetch i h] is what the [i]-th
    call of it in the life of the world returns (a title or [None]) or
    raises when it is made on the hash [h]; [E] is the type of the
    exceptions it can raise. *)

Definition fetcher (E : Type) : Type := nat -> str -> outcome E (option str).

(** What the cache file holds: the JSON text of a dict from hashes to
    titles or [null], which [json.load] reads back as [json.dump] wrote
    it, or something that is not JSON. *)
Inductive file_content : Type :=
| JsonOf (d : dict str (option str))
| NotJson.

(** The world: the cache file, if there is one, and the number of calls
    of [fetch_map_name] made so far. *)
Record world : Type := World {
  cache : option file_content;
  calls : nat
}.

Inductive cache_exn (E : Type) : Type :=
| FetchRaised (e : E)
| JSONDecodeError
| FileNotFoundError.

Arguments FetchRaised {E} e.
Arguments JSONDecodeError {E}.
Arguments FileNotFoundError {E}.

(** The loop of [build_cached_results], from the dict [acc]. *)
Fixpoint build_cached_loop {E : Type} (fetch : fetcher E) (hashes : list str)
  (acc : dict str (option str)) (w : world)
  : outcome E (dict str (option str)) * world :=
  match hashes with
  | [] => (Return acc, w)
  | h :: hashes' =>
      let w' := World (cache w) (S (calls w)) in
      match fetch (calls w) h with
      | Return map_name =>
          build_cached_loop fetch hashes' (dict_set h map_name acc) w'
      | Throw e => (Throw e, w')
      end
  end.

Definition build_cached_results {E : Type} (fetch : fetcher E)
  (hashes : list str) (w : world)
  : outcome E (dict str (option str)) * world :=
  build_cached_loop fetch hashes [] w.

(** [os.path.isfile(CACHE_NAME)] *)
Definition isfile (w : world) : bool :=
  match cache w with
  | Some _ => true
  | None => false
  end.

(** [json.load] of the cache file. *)
Definition load_cache {E : Type} (w : world)
  : outcome (cache_exn E) (dict str (option str)) :=
  match cache w with
  | Some (JsonOf d) => Return d
  | Some NotJson => Throw JSONDecodeError
  | None => Throw FileNotFoundError
  end.

Definition build_map_hash_to_name_mapping {E : Type} (fetch : fetcher E)
  (hashes : list str) (force : bool) (w : world)
  : outcome (cache_exn E) (dict str (option str)) * world :=
  let written :=
    if negb (isfile w) || force then
      match build_cached_results fetch hashes w with
      | (Return results, w1) =>
          (Return tt, World (Some (JsonOf results)) (calls w1))
      | (Throw e, w1) => (Throw (FetchRaised e), w1)
      end
    else (Return tt, w) in
  match written with
  | (Return _, w1) => (load_cache w1, w1)
  | (Throw e, w1) => (Throw e, w1)
  end.

(** ** The most played map of each period

    The loop of [timely_map_breakdown] and the two lines after it.
    [counts] is what [counts.iteritems()] yields: the pairs of a
    (map name, timestamp) index and a play count, in the order of the
    iteration.  A timestamp is an integer. *)

Definition count_item : Type := (str * Z) * Z.

Definition max_values_step (max_values : dict Z (Z * str)) (item : count_item)
  : dict Z (Z * str) :=
  let '((map_name, timestamp), played_count) := item in
  match dict_get timestamp max_values with
  | Some (existing_count, existing_name) =>
      if (played_count >? existing_count)%Z
      then dict_set timestamp (played_count, map_name) max_values
      else max_values
  | None => dict_set timestamp (played_count, map_name) max_values
  end.

Definition max_values_of (counts : list count_item) : dict Z (Z * str) :=
  fold_left max_values_step counts [].

(** [sorted] on timestamps, by insertion. *)
Fixpoint insert_sorted (x : Z) (l : list Z) : list Z :=
  match l with
  | [] => [x]
  | y :: l' => if (x <=? y)%Z then x :: l else y :: insert_sorted x l'
  end.

Definition py_sorted (l : list Z) : list Z := fold_right insert_sorted [] l.

Inductive key_error : Type := KeyError (k : Z).

(** [[max_values[t][1] for t in times]], with the index [times]. *)
Fixpoint names_at (max_values : dict Z (Z * str)) (times : list Z)
  : outcome key_error (list (Z * str)) :=
  match times with
  | [] => Return []
  | t :: times' =>
      match dict_get t max_values with
      | Some (_, name) =>
          match names_at max_values times' with
          | Return data => Return ((t, name) :: data)
          | Throw e => Throw e
          end
      | None => Throw (KeyError t)
      end
  end.

(** The series [max_map]: its index and its data, paired. *)
Definition max_map (counts : list count_item)
  : outcome key_error (list (Z * str)) :=
  let max_values := max_values_of counts in
  let times := py_sorted (dict_keys max_values) in
  names_at max_values times.

(** The item of [name] is, among the items of [counts] for the timestamp
    [t], the first with the largest count [c]. *)
Definition first_largest (counts : list count_item) (t c : Z) (name : str)
  : Prop :=
  exists l1 l2, counts = l1 ++ ((name, t), c) :: l2 /\
    (forall name' c', In ((name', t), c') l1 -> (c' < c)%Z) /\
    (forall name' c', In ((name', t), c') l2 -> (c' <= c)%Z).

(** * Properties of the matcher *)

(** ** Greedy digit runs *)

Lemma take_drop_digits (s : str) : take_digits s ++ drop_digits s = s.
Proof.
  induction s as [|c t IH]; simpl; [reflexivity|].
  destruct (is_digit c); simpl; [now rewrite IH | reflexivity].
Qed.

Lemma take_digits_all (s : str) : forallb is_digit (take_digits s) = true.
Proof.
  induction s as [|c t IH]; simpl; [reflexivity|].
  destruct (is_digit c) eqn:E; simpl; [now rewrite E | reflexivity].
Qed.

Lemma drop_digits_length (s : str) : length (drop_digits s) <= length s.
Proof.
  induction s as [|a s IH]; simpl; [lia|].
  destruct (is_digit a); simpl; lia.
Qed.

Lemma take_digits_nil_drop (s : str) : take_digits s = [] -> drop_digits s = s.
Proof.
  destruct s as [|c t]; simpl; [reflexivity|].
  destruct (is_digit c); [discriminate | reflexivity].
Qed.

Lemma plus_loop_digit (k : mstate -> option mstate) (g : list (string * str)) :
  forall (s : str) (fuel : nat), length s < fuel ->
  (fix loop (fuel : nat) (st0 : mstate) {struct fuel} : option mstate :=
     match fuel with
     | O => None
     | S fuel' =>
         m Digit st0 (fun st1 =>
           or_else
             (if length (rest st1) <? length (rest st0)
              then loop fuel' st1 else None)
             (k st1))
     end) fuel (MState s g) = plus_digit s g k.
Proof.
  induction s as [|c t IH]; intros fuel Hf.
  - destruct fuel; reflexivity.
  - destruct fuel as [|fuel]; [simpl in Hf; lia|].
    simpl. destruct (is_digit c); [|reflexivity].
    rewrite IH by (simpl in Hf; lia).
    replace (length t <? S (length t)) with true
      by (symmetry; apply Nat.ltb_lt; lia).
    reflexivity.
Qed.

Lemma m_digits (st : mstate) (k : mstate -> option mstate) :
  m digits st k = plus_digit (rest st) (groups st) k.
Proof.
  destruct st as [s g]. unfold digits. simpl m.
  apply (plus_loop_digit k g s (S (length s))). lia.
Qed.

Lemma plus_digit_none (s : str) g k : take_digits s = [] -> plus_digit s g k = None.
Proof.
  destruct s as [|c t]; simpl; [reflexivity|].
  destruct (is_digit c); [discriminate | reflexivity].
Qed.

(** When the continuation accepts the end of the whole run, [\d+] reads
    the whole run. *)
Lemma plus_digit_longest (s : str) g k :
  take_digits s <> [] ->
  k (MState (drop_digits s) g) <> None ->
  plus_digit s g k = k (MState (drop_digits s) g).
Proof.
  induction s as [|c t IH]; simpl; [congruence|].
  destruct (is_digit c); [|congruence].
  intros _ Hk.
  destruct (take_digits t) eqn:E.
  - rewrite (plus_digit_none t g k E).
    rewrite (take_digits_nil_drop t E). reflexivity.
  - rewrite IH by (assumption || congruence).
    destruct (k (MState (drop_digits t) g)); [reflexivity | congruence].
Qed.

(** When the continuation rejects a digit, [\d+] can only stop at the end
    of the run. *)
Lemma plus_digit_strict (s : str) g k :
  no_digit_next k ->
  plus_digit s g k =
  match take_digits s with
  | [] => None
  | _ :: _ => k (MState (drop_digits s) g)
  end.
Proof.
  intros Hk. induction s as [|c t IH]; simpl; [reflexivity|].
  destruct (is_digit c) eqn:Ec; [|reflexivity].
  rewrite IH. destruct t as [|c' t']; simpl; [reflexivity|].
  destruct (is_digit c') eqn:Ec'; simpl.
  - destruct (k (MState (drop_digits t') g)); [reflexivity|].
    simpl. apply Hk. exact Ec'.
  - reflexivity.
Qed.

(** ** The matcher on numbers, dots and literals *)

Lemma digit_not_dot (c : ascii) : is_digit c = true -> Ascii.eqb "." c = false.
Proof.
  intros H. destruct (Ascii.eqb_spec "." c) as [<-|]; [discriminate H | reflexivity].
Qed.

Lemma m_dot (st : mstate) (k : mstate -> option mstate) :
  m dot st k =
  match eat_dot (rest st) with
  | Some t => k (MState t (groups st))
  | None => None
  end.
Proof.
  destruct st as [[|c t] g]; unfold dot; cbn [m rest groups eat_dot];
    [reflexivity|].
  destruct (Ascii.eqb "." c); reflexivity.
Qed.

Lemma dot_no_digit_next (r : regex) (k : mstate -> option mstate) :
  no_digit_next (fun st => m (dot ;; r) st k).
Proof.
  intros c t g Hc. unfold dot. cbn [m rest groups].
  now rewrite (digit_not_dot c Hc).
Qed.

Lemma m_number (s : str) g (k : mstate -> option mstate) :
  (forall r, k (MState r g) <> None) ->
  m digits (MState s g) k =
  match eat_number s with
  | Some r => k (MState r g)
  | None => None
  end.
Proof.
  intros Hk. rewrite m_digits. simpl. unfold eat_number.
  destruct (take_digits s) eqn:E.
  - now apply plus_digit_none.
  - apply plus_digit_longest; [congruence | apply Hk].
Qed.

Lemma m_number_dot (s : str) g (r : regex) (k : mstate -> option mstate) :
  m (digits ;; dot ;; r) (MState s g) k =
  match eat_number s with
  | Some s1 =>
      match eat_dot s1 with
      | Some s2 => m r (MState s2 g) k
      | None => None
      end
  | None => None
  end.
Proof.
  change (m (digits ;; dot ;; r) (MState s g) k)
    with (m digits (MState s g) (fun st => m (dot ;; r) st k)).
  rewrite m_digits. simpl rest. simpl groups.
  rewrite plus_digit_strict by apply dot_no_digit_next.
  unfold eat_number. destruct (take_digits s); [reflexivity|].
  change (m (dot ;; r) (MState (drop_digits s) g) k)
    with (m dot (MState (drop_digits s) g) (fun st => m r st k)).
  rewrite m_dot. reflexivity.
Qed.

Lemma m_dotted (n : nat) : forall (s : str) g (k : mstate -> option mstate),
  (forall r, k (MState r g) <> None) ->
  m (dotted_re n) (MState s g) k =
  match eat_dotted n s with
  | Some r => k (MState r g)
  | None => None
  end.
Proof.
  induction n as [|n IH]; intros s g k Hk.
  - now apply m_number.
  - simpl dotted_re. rewrite m_number_dot. simpl eat_dotted.
    destruct (eat_number s) as [s1|]; [|reflexivity].
    destruct (eat_dot s1) as [s2|]; [|reflexivity].
    now apply IH.
Qed.

Lemma m_Cat (r1 r2 : regex) st k :
  m (r1 ;; r2) st k = m r1 st (fun st' => m r2 st' k).
Proof. reflexivity. Qed.

Lemma m_Group (name : string) (r : regex) st k :
  m (Group name r) st k =
  m r st (fun st1 =>
    k (MState (rest st1)
              ((name, text_between (rest st) (rest st1)) :: groups st1))).
Proof. reflexivity. Qed.

Lemma m_Str (p : str) : forall (s : str) g (k : mstate -> option mstate),
  m (Str p) (MState s g) k =
  match eat_lit p s with
  | Some r => k (MState r g)
  | None => None
  end.
Proof.
  induction p as [|a p IH]; intros s g k; cbn [Str m rest groups eat_lit];
    [reflexivity|].
  destruct s as [|b s]; [reflexivity|].
  destruct (Ascii.eqb a b); [apply IH | reflexivity].
Qed.

Lemma m_Str_cat (p : str) (r : regex) (s : str) g (k : mstate -> option mstate) :
  m (Str p ;; r) (MState s g) k =
  match eat_lit p s with
  | Some s1 => m r (MState s1 g) k
  | None => None
  end.
Proof.
  change (m (Str p ;; r) (MState s g) k)
    with (m (Str p) (MState s g) (fun st => m r st k)).
  apply m_Str.
Qed.

(** ** The matcher on the six patterns *)

Lemma match_at_opengl (s : str) :
  option_map group0 (match_at GLParser.opengl_version_re s) =
  option_map (text_between s) (eat_version s).
Proof.
  unfold match_at, GLParser.opengl_version_re, eat_version.
  change (digits ;; dot ;; digits ;; Opt (Group "1" (dot ;; digits)))
    with (digits ;; dot ;; dotted_re 0 ;; Opt (Group "1" (dot ;; digits))).
  rewrite m_number_dot. cbn [eat_dotted].
  destruct (eat_number s) as [s1|]; [|reflexivity].
  destruct (eat_dot s1) as [s2|]; [|reflexivity].
  change (m (dotted_re 0 ;; Opt (Group "1" (dot ;; digits))) (MState s2 []) Some)
    with (m digits (MState s2 [])
            (fun st => m (Opt (Group "1" (dot ;; digits))) st Some)).
  rewrite m_number.
  2:{ intros r. cbn [m]. unfold or_else.
      destruct (m dot _ _); discriminate. }
  destruct (eat_number s2) as [r|]; [|reflexivity].
  cbn [m]. rewrite m_dot. cbn [rest groups].
  destruct (eat_dot r) as [r1|]; cbn [bind or_else]; [|reflexivity].
  rewrite m_number by (intros; discriminate).
  destruct (eat_number r1) as [r2|]; reflexivity.
Qed.

Lemma match_at_dotted (n : nat) (s : str) :
  match_at (dotted_re n) s =
  match eat_dotted n s with
  | Some r => Some (MatchObj (text_between s r) [])
  | None => None
  end.
Proof.
  unfold match_at. rewrite m_dotted by (intros; discriminate).
  destruct (eat_dotted n s); reflexivity.
Qed.

Lemma match_at_prefixed (p : str) (n : nat) (s : str) :
  match_at (Str p ;; Group "version" (dotted_re n)) s =
  match eat_lit p s with
  | Some s1 =>
      match eat_dotted n s1 with
      | Some r =>
          Some (MatchObj (text_between s r) [("version"%string, text_between s1 r)])
      | None => None
      end
  | None => None
  end.
Proof.
  unfold match_at. rewrite m_Str_cat.
  destruct (eat_lit p s) as [s1|]; [|reflexivity].
  rewrite m_Group, m_dotted by (intros; discriminate).
  destruct (eat_dotted n s1); reflexivity.
Qed.

Lemma m_three_digits (r : regex) (s : str) g (k : mstate -> option mstate) :
  m (Times 3 Digit ;; r) (MState s g) k =
  match bind (bind (eat_digit s) eat_digit) eat_digit with
  | Some t => m r (MState t g) k
  | None => None
  end.
Proof.
  cbn [m rest groups]. unfold eat_digit.
  destruct s as [|a s]; [reflexivity|].
  destruct (is_digit a); [|reflexivity]. cbn [bind rest groups].
  destruct s as [|b s]; [reflexivity|].
  destruct (is_digit b); [|reflexivity]. cbn [bind rest groups].
  destruct s as [|c s]; [reflexivity|].
  destruct (is_digit c); reflexivity.
Qed.

Lemma match_at_nvidia (s : str) :
  match_at GLParser.nvidia_version_re s =
  match eat_lit (lit "NVIDIA ") s with
  | Some s1 =>
      match eat_nvidia_number s1 with
      | Some r =>
          Some (MatchObj (text_between s r) [("version"%string, text_between s1 r)])
      | None => None
      end
  | None => None
  end.
Proof.
  unfold match_at, GLParser.nvidia_version_re. rewrite m_Str_cat.
  destruct (eat_lit (lit "NVIDIA ") s) as [s1|]; [|reflexivity].
  rewrite m_Group. unfold eat_nvidia_number.
  rewrite m_three_digits.
  destruct (bind (bind (eat_digit s1) eat_digit) eat_digit) as [t|];
    [|reflexivity].
  rewrite m_Cat, m_dot. cbn [rest groups bind].
  destruct (eat_dot t) as [t1|]; [|reflexivity]. cbn [bind].
  rewrite m_number by (intros; discriminate).
  destruct (eat_number t1); reflexivity.
Qed.

(** * Leftmost matches *)

Lemma text_between_app (v r : str) : text_between (v ++ r) r = v.
Proof.
  unfold text_between. rewrite length_app.
  replace (length v + length r - length r) with (length v) by lia.
  rewrite firstn_app, firstn_all, Nat.sub_diag. simpl. apply app_nil_r.
Qed.

Lemma leftmost_match_occurs P s v : leftmost_match P s v -> occurs P s.
Proof.
  intros (pre & post & -> & Hv & _). now exists pre, v, post.
Qed.

Lemma app_same_length {A : Type} (a b c d : list A) :
  a ++ b = c ++ d -> length a = length c -> a = c /\ b = d.
Proof.
  revert c. induction a as [|x a IH]; intros [|y c] H L; simpl in *;
    try discriminate; [now split|].
  injection H as -> H. destruct (IH c H) as [-> ->]; [lia | now split].
Qed.

Lemma leftmost_match_unique P s v1 v2 :
  leftmost_match P s v1 -> leftmost_match P s v2 -> v1 = v2.
Proof.
  intros (pre1 & post1 & E1 & P1 & L1 & N1) (pre2 & post2 & E2 & P2 & L2 & N2).
  rewrite E1 in E2. destruct (app_eq_app _ _ _ _ E2) as (x & [[Ea Eb]|[Ea Eb]]).
  - destruct x as [|c x].
    + rewrite app_nil_r in Ea. simpl in Eb. subst pre1.
      assert (H1 : length v1 <= length v2) by (apply L2; [assumption|]; exists post1; now rewrite Eb).
      assert (H2 : length v2 <= length v1) by (apply L1; [assumption|]; now exists post2).
      destruct (app_same_length v1 post1 v2 post2); [now rewrite Eb | lia | assumption].
    + exfalso. apply (N1 pre2 (c :: x) v2 Ea); [discriminate | assumption|].
      exists post2. rewrite <- Eb. reflexivity.
  - destruct x as [|c x].
    + rewrite app_nil_r in Ea. simpl in Eb. subst pre2.
      assert (H1 : length v1 <= length v2) by (apply L2; [assumption|]; exists post1; now rewrite Eb).
      assert (H2 : length v2 <= length v1) by (apply L1; [assumption|]; exists post2; now rewrite Eb).
      destruct (app_same_length v1 post1 v2 post2); [now rewrite Eb | lia | assumption].
    + exfalso. apply (N2 pre1 (c :: x) v1 Ea); [discriminate | assumption|].
      exists post1. rewrite Eb. reflexivity.
Qed.

Section Leftmost.

Variable P : str -> Prop.
Variable eat : str -> option str.
Hypothesis Hreads : reads P eat.

Lemma eat_prefix (s v : str) : P v -> prefix_of v s -> eat s <> None.
Proof.
  intros Hv (post & ->).
  destruct (reads_longest P eat Hreads v post Hv) as (r & -> & _).
  discriminate.
Qed.

Lemma find_first_leftmost (s v : str) :
  find_first eat s = Some v -> leftmost_match P s v.
Proof.
  induction s as [|c t IH]; simpl.
  - destruct (eat []) as [r|] eqn:E; [|discriminate].
    intros H; injection H as <-.
    destruct (reads_sound P eat Hreads _ _ E) as (v0 & Es & Hv0).
    symmetry in Es. apply app_eq_nil in Es as [-> ->].
    exists [], []. simpl. repeat split; try assumption.
    + intros v' Hv' (post' & Ep). symmetry in Ep.
      apply app_eq_nil in Ep as [-> _]. simpl. lia.
    + intros pre1 pre2 v' Ep Hne. symmetry in Ep.
      apply app_eq_nil in Ep as [_ ->]. congruence.
  - destruct (eat (c :: t)) as [r|] eqn:E.
    + intros H; injection H as <-.
      destruct (reads_sound P eat Hreads _ _ E) as (v0 & Es & Hv0).
      rewrite Es, text_between_app.
      exists [], r. simpl. repeat split; try assumption.
      * intros v' Hv' (post' & Ep).
        destruct (reads_longest P eat Hreads v' post' Hv') as (r' & Er' & Hl).
        rewrite <- Ep, <- Es, E in Er'. injection Er' as <-.
        apply (f_equal (@length ascii)) in Ep. rewrite !length_app in Ep. lia.
      * intros pre1 pre2 v' Ep Hne. symmetry in Ep.
        apply app_eq_nil in Ep as [_ ->]. congruence.
    + intros H. destruct (IH H) as (pre & post & Et & Hv & Hl & Hn).
      exists (c :: pre), post. simpl. rewrite <- Et.
      repeat split; try assumption.
      intros pre1 pre2 v' Ep Hne Hv' Hpre.
      destruct pre1 as [|c1 pre1]; simpl in Ep.
      * subst pre2. simpl in Hpre. rewrite <- Et in Hpre.
        now apply (eat_prefix _ _ Hv' Hpre).
      * injection Ep as -> Ep. now apply (Hn pre1 pre2 v' Ep Hne Hv').
Qed.

Lemma find_first_none (s : str) :
  find_first eat s = None -> ~ occurs P s.
Proof.
  induction s as [|c t IH]; simpl.
  - destruct (eat []) eqn:E; [discriminate|]. intros _ (pre & v & post & Es & Hv).
    symmetry in Es. apply app_eq_nil in Es as [-> Es].
    apply (eat_prefix [] v Hv); [|assumption]. exists post. now rewrite Es.
  - destruct (eat (c :: t)) eqn:E; [discriminate|].
    intros H (pre & v & post & Es & Hv).
    destruct pre as [|c' pre]; simpl in Es.
    + apply (eat_prefix (c :: t) v Hv); [|assumption]. now exists post.
    + injection Es as _ Es. apply (IH H). now exists pre, v, post.
Qed.

Lemma find_first_some_iff (s v : str) :
  find_first eat s = Some v <-> leftmost_match P s v.
Proof.
  split; [apply find_first_leftmost|].
  intros H. destruct (find_first eat s) as [v0|] eqn:E.
  - f_equal. apply (leftmost_match_unique P s v0 v); [|assumption].
    now apply find_first_leftmost.
  - exfalso. apply (find_first_none s E). now apply (leftmost_match_occurs P s v).
Qed.

Lemma find_first_none_iff (s : str) :
  find_first eat s = None <-> ~ occurs P s.
Proof.
  split; [apply find_first_none|].
  intros H. destruct (find_first eat s) as [v0|] eqn:E; [|reflexivity].
  exfalso. apply H. apply (leftmost_match_occurs P s v0).
  now apply find_first_leftmost.
Qed.

End Leftmost.

(** ** Each reader reads its shape *)

(** Right-nest every concatenation. *)
Ltac list_norm := repeat (progress (rewrite <- ?app_assoc; cbn [app])).

Lemma take_digits_app (d x : str) :
  forallb is_digit d = true -> take_digits (d ++ x) = d ++ take_digits x.
Proof.
  induction d as [|c d IH]; simpl; [reflexivity|].
  intros H. apply andb_prop in H as [-> H]. now rewrite IH.
Qed.

Lemma drop_digits_app (d x : str) :
  forallb is_digit d = true -> drop_digits (d ++ x) = drop_digits x.
Proof.
  induction d as [|c d IH]; simpl; [reflexivity|].
  intros H. apply andb_prop in H as [-> H]. now apply IH.
Qed.

Lemma eat_number_app (d x : str) :
  is_number d -> eat_number (d ++ x) = Some (drop_digits x).
Proof.
  intros [Hne Hd]. unfold eat_number.
  rewrite take_digits_app, drop_digits_app by assumption.
  destruct d; [congruence | reflexivity].
Qed.

Lemma eat_number_dot (d x : str) :
  is_number d -> eat_number (d ++ "."%char :: x) = Some ("."%char :: x).
Proof.
  intros H. now rewrite eat_number_app.
Qed.

Lemma eat_number_sound (s r : str) :
  eat_number s = Some r -> exists d, s = d ++ r /\ is_number d.
Proof.
  unfold eat_number. destruct (take_digits s) eqn:E; [discriminate|].
  intros H; injection H as <-. exists (take_digits s). split.
  - symmetry. apply take_drop_digits.
  - split; [rewrite E; discriminate | apply take_digits_all].
Qed.

Lemma eat_dot_sound (s r : str) : eat_dot s = Some r -> s = "."%char :: r.
Proof.
  destruct s as [|c t]; cbn [eat_dot]; [discriminate|].
  destruct (Ascii.eqb_spec "." c) as [<-|]; [|discriminate].
  now intros H; injection H as <-.
Qed.

Lemma reads_number : reads is_number eat_number.
Proof.
  split.
  - apply eat_number_sound.
  - intros v post Hv. exists (drop_digits post). split.
    + now apply eat_number_app.
    + apply drop_digits_length.
Qed.

Lemma reads_dotted (n : nat) : reads (dotted_text n) (eat_dotted n).
Proof.
  induction n as [|n [IHs IHl]]; [apply reads_number|]. split.
  - intros s r. simpl.
    destruct (eat_number s) as [s1|] eqn:E1; [|discriminate].
    destruct (eat_dot s1) as [s2|] eqn:E2; [|discriminate].
    intros E3. apply eat_number_sound in E1 as (d & -> & Hd).
    apply eat_dot_sound in E2 as ->.
    destruct (IHs _ _ E3) as (v' & -> & Hv').
    exists (d ++ "."%char :: v'). split.
    + list_norm. reflexivity.
    + now exists d, v'.
  - intros v post (d & v' & Hd & Hv' & ->).
    list_norm. cbn [eat_dotted].
    rewrite (eat_number_dot d (v' ++ post) Hd). simpl. now apply IHl.
Qed.

Lemma eat_dot_number_length (r r' : str) :
  bind (eat_dot r) eat_number = Some r' -> length r' <= length r.
Proof.
  destruct (eat_dot r) as [r1|] eqn:E1; simpl; [|discriminate].
  intros E2. apply eat_dot_sound in E1 as ->.
  apply eat_number_sound in E2 as (d & -> & _). simpl. rewrite length_app. lia.
Qed.

Lemma reads_version : reads version_text eat_version.
Proof.
  split.
  - intros s r. unfold eat_version.
    destruct (eat_dotted 1 s) as [r0|] eqn:E0; [|discriminate].
    destruct (reads_sound _ _ (reads_dotted 1) _ _ E0) as (v0 & -> & Hv0).
    destruct (eat_dot r0) as [r1|] eqn:E1; simpl.
    + destruct (eat_number r1) as [r2|] eqn:E2; intros H; injection H as <-.
      * apply eat_dot_sound in E1 as ->.
        apply eat_number_sound in E2 as (d3 & -> & Hd3).
        destruct Hv0 as (d1 & d2 & Hd1 & Hd2 & ->).
        exists (d1 ++ "."%char :: d2 ++ "."%char :: d3). split.
        -- list_norm. reflexivity.
        -- right. exists d1, (d2 ++ "."%char :: d3). repeat split; try apply Hd1.
           now exists d2, d3.
      * exists v0. split; [reflexivity | now left].
    + intros H; injection H as <-. exists v0. split; [reflexivity | now left].
  - intros v post [(d1 & d2 & Hd1 & Hd2 & ->)|(d1 & v' & Hd1 & (d2 & d3 & Hd2 & Hd3 & ->) & ->)];
      unfold eat_version; simpl eat_dotted.
    + list_norm.
      rewrite (eat_number_dot d1 _ Hd1). simpl.
      rewrite (eat_number_app d2 post Hd2).
      destruct (bind (eat_dot (drop_digits post)) eat_number) as [r'|] eqn:E.
      * exists r'. split; [reflexivity|].
        apply eat_dot_number_length in E. pose proof (drop_digits_length post). lia.
      * exists (drop_digits post). split; [reflexivity | apply drop_digits_length].
    + list_norm.
      rewrite (eat_number_dot d1 _ Hd1). simpl.
      rewrite (eat_number_dot d2 _ Hd2). simpl.
      rewrite (eat_number_app d3 post Hd3).
      exists (drop_digits post). split; [reflexivity | apply drop_digits_length].
Qed.

Lemma eat_lit_sound (p s r : str) : eat_lit p s = Some r -> s = p ++ r.
Proof.
  revert s. induction p as [|a p IH]; intros s; cbn [eat_lit app].
  - now intros H; injection H as <-.
  - destruct s as [|b s]; [discriminate|].
    destruct (Ascii.eqb_spec a b) as [<-|]; [|discriminate].
    intros H. now rewrite (IH s H).
Qed.

Lemma eat_lit_app (p x : str) : eat_lit p (p ++ x) = Some x.
Proof.
  induction p as [|a p IH]; cbn [eat_lit app]; [reflexivity|].
  now rewrite Ascii.eqb_refl.
Qed.

Lemma reads_prefixed (p : str) P eat :
  reads P eat -> reads (prefixed p P) (fun s => bind (eat_lit p s) eat).
Proof.
  intros [Hs Hl]. split.
  - intros s r. destruct (eat_lit p s) as [s1|] eqn:E1; simpl; [|discriminate].
    intros E2. apply eat_lit_sound in E1 as ->.
    destruct (Hs _ _ E2) as (num & -> & Hnum).
    exists (p ++ num). split; [now rewrite <- app_assoc | now exists num].
  - intros v post (num & Hnum & ->).
    rewrite <- app_assoc, eat_lit_app. simpl. now apply Hl.
Qed.

Lemma eat_digit_sound (s r : str) :
  eat_digit s = Some r -> exists c, is_digit c = true /\ s = c :: r.
Proof.
  destruct s as [|c t]; simpl; [discriminate|].
  destruct (is_digit c) eqn:E; [|discriminate].
  intros H; injection H as <-. now exists c.
Qed.

Lemma reads_nvidia_number : reads nvidia_text eat_nvidia_number.
Proof.
  split.
  - intros s r. unfold eat_nvidia_number.
    destruct (eat_digit s) as [s1|] eqn:E1; simpl; [|discriminate].
    destruct (eat_digit s1) as [s2|] eqn:E2; simpl; [|discriminate].
    destruct (eat_digit s2) as [s3|] eqn:E3; simpl; [|discriminate].
    destruct (eat_dot s3) as [s4|] eqn:E4; simpl; [|discriminate].
    intros E5.
    apply eat_digit_sound in E1 as (a & Ha & ->).
    apply eat_digit_sound in E2 as (b & Hb & ->).
    apply eat_digit_sound in E3 as (c & Hc & ->).
    apply eat_dot_sound in E4 as ->.
    apply eat_number_sound in E5 as (d & -> & Hd).
    exists (a :: b :: c :: "."%char :: d). split; [reflexivity|].
    now exists a, b, c, d.
  - intros v post (a & b & c & d & Ha & Hb & Hc & Hd & ->).
    unfold eat_nvidia_number. simpl. rewrite Ha. simpl. rewrite Hb. simpl.
    rewrite Hc. simpl. rewrite (eat_number_app d post Hd).
    exists (drop_digits post). split; [reflexivity | apply drop_digits_length].
Qed.

(** ** [search] returns the leftmost match *)

Lemma search_find_first (R : regex) (eat : str -> option str) :
  (forall s, option_map group0 (match_at R s) =
             option_map (text_between s) (eat s)) ->
  forall s, option_map group0 (search R s) = find_first eat s.
Proof.
  intros H s. induction s as [|c t IH]; cbn [search find_first].
  - specialize (H []). destruct (match_at R []) as [mo|];
      destruct (eat []) as [r|]; simpl in H; try discriminate;
      try (injection H as <-); reflexivity.
  - specialize (H (c :: t)). destruct (match_at R (c :: t)) as [mo|];
      destruct (eat (c :: t)) as [r|]; simpl in H; try discriminate;
      try (injection H as <-); [reflexivity | exact IH].
Qed.

Lemma search_find_first_group (R : regex) (p : str) P (eatN : str -> option str) :
  reads P eatN ->
  (forall s, match_at R s =
     match eat_lit p s with
     | Some s1 =>
         match eatN s1 with
         | Some r =>
             Some (MatchObj (text_between s r)
                            [("version"%string, text_between s1 r)])
         | None => None
         end
     | None => None
     end) ->
  forall s, bind (search R s) (group "version") =
            option_map (skipn (length p))
                       (find_first (fun s => bind (eat_lit p s) eatN) s).
Proof.
  intros HP H.
  assert (Hat : forall s,
    match bind (eat_lit p s) eatN with
    | Some r => match_at R s <> None /\
                bind (match_at R s) (group "version") =
                Some (skipn (length p) (text_between s r))
    | None => match_at R s = None
    end).
  { intros s. rewrite H. destruct (eat_lit p s) as [s1|] eqn:E1; simpl; [|reflexivity].
    destruct (eatN s1) as [r|] eqn:E2; [|reflexivity].
    split; [discriminate|]. simpl. unfold group. simpl. f_equal.
    apply eat_lit_sound in E1 as ->.
    destruct (reads_sound _ _ HP _ _ E2) as (v & -> & _).
    rewrite text_between_app.
    replace (p ++ v ++ r) with ((p ++ v) ++ r) by (now rewrite app_assoc).
    rewrite text_between_app, skipn_app, skipn_all, Nat.sub_diag. reflexivity. }
  intros s. induction s as [|c t IH]; cbn [search find_first];
    [specialize (Hat []) | specialize (Hat (c :: t))];
    destruct (bind (eat_lit p _) eatN) as [r|].
  - destruct Hat as [Hne Hg]. destruct (match_at R []); [exact Hg | congruence].
  - now rewrite Hat.
  - destruct Hat as [Hne Hg]. destruct (match_at R (c :: t)); [exact Hg | congruence].
  - rewrite Hat. exact IH.
Qed.

(** * Properties of the classifier *)

(** ** The family table *)

Lemma reads_driver_number (f : family) :
  reads (driver_number f) (eat_driver_number f).
Proof.
  destruct f; first [apply reads_dotted | apply reads_nvidia_number].
Qed.

Lemma reads_driver (f : family) : reads (driver_pattern f) (eat_driver f).
Proof.
  apply reads_prefixed, reads_driver_number.
Qed.

Lemma opengl_version_find_first (s : str) :
  GLParser._opengl_version s = find_first eat_version s.
Proof.
  rewrite <- (search_find_first _ _ match_at_opengl s).
  unfold GLParser._opengl_version.
  destruct (search GLParser.opengl_version_re s); reflexivity.
Qed.

Lemma skipn_0_map (o : option str) : option_map (skipn 0) o = o.
Proof. destruct o; reflexivity. Qed.

Lemma driver_version_find_first (f : family) (s : str) :
  driver_version (matcher f s) =
  option_map (skipn (length (driver_prefix f))) (find_first (eat_driver f) s).
Proof.
  destruct f; cbn [matcher].
  - unfold GLParser.parse_compatability_profile_context. cbn [driver_version].
    change (length (driver_prefix Compat)) with 0. rewrite skipn_0_map.
    rewrite <- (search_find_first (dotted_re 3) (eat_driver Compat)).
    + change (dotted_re 3) with GLParser.compat_version_re.
      destruct (search GLParser.compat_version_re s); reflexivity.
    + intros s0. rewrite match_at_dotted. unfold eat_driver.
      cbn [driver_prefix eat_driver_number eat_lit bind].
      destruct (eat_dotted 3 s0); reflexivity.
  - unfold GLParser.parse_mesa. cbn [driver_version].
    change (length (driver_prefix Mesa)) with 0. rewrite skipn_0_map.
    rewrite <- (search_find_first (dotted_re 2) (eat_driver Mesa)).
    + change (dotted_re 2) with GLParser.mesa_version_re.
      destruct (search GLParser.mesa_version_re s); reflexivity.
    + intros s0. rewrite match_at_dotted. unfold eat_driver.
      cbn [driver_prefix eat_driver_number eat_lit bind].
      destruct (eat_dotted 2 s0); reflexivity.
  - unfold GLParser.parse_nvidia. cbn [driver_version].
    apply (search_find_first_group GLParser.nvidia_version_re
             (driver_prefix Nvidia) _ _ (reads_driver_number Nvidia)).
    apply match_at_nvidia.
  - unfold GLParser.parse_intel. cbn [driver_version].
    apply (search_find_first_group GLParser.intel_version_re
             (driver_prefix Intel) _ _ (reads_driver_number Intel)).
    intros s0. apply (match_at_prefixed (lit "INTEL-") 2).
  - unfold GLParser.parse_build_version. cbn [driver_version].
    apply (search_find_first_group GLParser.build_version_re
             (driver_prefix Build) _ _ (reads_driver_number Build)).
    intros s0. apply (match_at_prefixed (lit "Build ") 3).
Qed.

Lemma matcher_version (f : family) (s : str) :
  version (matcher f s) = GLParser._opengl_version s.
Proof. destruct f; reflexivity. Qed.

Lemma matcher_driver (f : family) (s : str) :
  driver (matcher f s) = Some (family_name f).
Proof. destruct f; reflexivity. Qed.

(** ** Dispatch *)

Lemma starts_with_spec (p s : str) : starts_with p s = true <-> prefix_of p s.
Proof.
  revert s. induction p as [|a p IH]; intros s; cbn [starts_with].
  - split; [intros _; now exists s | reflexivity].
  - destruct s as [|b s].
    + split; [discriminate | intros (post & H); discriminate H].
    + rewrite andb_true_iff, Ascii.eqb_eq, IH. split.
      * intros [-> (post & ->)]. now exists post.
      * intros (post & H). injection H as -> ->. split; [reflexivity | now exists post].
Qed.

Lemma contains_spec (p s : str) : contains p s = true <-> substring p s.
Proof.
  induction s as [|c t IH]; cbn [contains]; rewrite orb_true_iff, starts_with_spec.
  - split.
    + intros [(post & H)|H]; [|discriminate]. exists [], post. exact H.
    + intros (pre & post & H). left. symmetry in H.
      apply app_eq_nil in H as [-> H]. exists post. now rewrite H.
  - rewrite IH. split.
    + intros [(post & H)|(pre & post & ->)].
      * exists [], post. exact H.
      * now exists (c :: pre), post.
    + intros ([|c' pre] & post & H); simpl in H.
      * left. now exists post.
      * right. injection H as _ ->. now exists pre, post.
Qed.

Lemma contains_false (p s : str) : contains p s = false <-> ~ substring p s.
Proof.
  rewrite <- contains_spec. destruct (contains p s); split; congruence.
Qed.

Lemma find_first_hit {A : Type} (p : A -> bool) (l : list A) :
  forall i x, nth_error l i = Some x -> p x = true ->
  (forall j y, j < i -> nth_error l j = Some y -> p y = false) ->
  find p l = Some x.
Proof.
  induction l as [|a l IH]; intros [|i] x Hn Hx Hlt; simpl in *; try discriminate.
  - injection Hn as ->. now rewrite Hx.
  - rewrite (Hlt 0 a) by (lia || reflexivity).
    apply (IH i x Hn Hx). intros j y Hj Hy. apply (Hlt (S j) y); [lia | exact Hy].
Qed.

Lemma find_hit_first {A : Type} (p : A -> bool) (l : list A) (x : A) :
  find p l = Some x ->
  exists i, nth_error l i = Some x /\ p x = true /\
    forall j y, j < i -> nth_error l j = Some y -> p y = false.
Proof.
  induction l as [|a l IH]; simpl; [discriminate|].
  destruct (p a) eqn:E.
  - intros H; injection H as <-. exists 0. repeat split; [assumption|]. intros; lia.
  - intros H. destruct (IH H) as (i & Hn & Hx & Hlt). exists (S i).
    repeat split; try assumption.
    intros [|j] y Hj Hy; simpl in Hy; [now injection Hy as <- |].
    apply (Hlt j y); [lia | exact Hy].
Qed.

Lemma families_all (f : family) : In f families.
Proof. destruct f; simpl; tauto. Qed.

(** The chain of tests in [parse], by family. *)
Lemma parse_dispatch (s : str) :
  GLParser.parse (PyStr s) =
  match dispatch s with
  | Some f => Ok (matcher f s)
  | None =>
      match GLParser._opengl_version s with
      | Some (c :: v) =>
          Ok (mkOpenGLDescriptor (Some (c :: v)) (Some (lit "generic")) None)
      | _ => Raise (NotImplementedError (lit "Unimplemented for " ++ s))
      end
  end.
Proof.
  unfold GLParser.parse, dispatch, families. cbn [find keyword].
  destruct (contains (lit "Compatibility Profile Context") s); [reflexivity|].
  destruct (contains (lit "Mesa") s); [reflexivity|].
  destruct (contains (lit "NVIDIA") s); [reflexivity|].
  destruct (contains (lit "INTEL") s); [reflexivity|].
  destruct (contains (lit "Build") s); [reflexivity|].
  destruct (GLParser._opengl_version s) as [[|c v]|]; reflexivity.
Qed.

(** The integer branch of [parse]. *)
Lemma parse_int_short (n : Z) :
  Decimal.nb_digits (int_digits n) <= int_max_str_digits ->
  GLParser.parse (PyInt n) =
  Ok (mkOpenGLDescriptor (Some (str_int n ++ lit ".0.0")) None None).
Proof.
  intros H. unfold GLParser.parse, format_int, rbind.
  apply Nat.leb_le in H. now rewrite H.
Qed.

Lemma parse_int_long (n : Z) :
  int_max_str_digits < Decimal.nb_digits (int_digits n) ->
  GLParser.parse (PyInt n) = Raise (ValueError int_limit_message).
Proof.
  intros H. unfold GLParser.parse, format_int, rbind.
  apply Nat.leb_gt in H. now rewrite H.
Qed.

Lemma parse_int_cases (n : Z) :
  Decimal.nb_digits (int_digits n) <= int_max_str_digits /\
  GLParser.parse (PyInt n) =
    Ok (mkOpenGLDescriptor (Some (str_int n ++ lit ".0.0")) None None) \/
  int_max_str_digits < Decimal.nb_digits (int_digits n) /\
  GLParser.parse (PyInt n) = Raise (ValueError int_limit_message).
Proof.
  destruct (Nat.le_gt_cases (Decimal.nb_digits (int_digits n))
              int_max_str_digits) as [H|H].
  - left. split; [exact H | now apply parse_int_short].
  - right. split; [exact H | now apply parse_int_long].
Qed.

Lemma parse_int_ok (n : Z) (d : OpenGLDescriptor) :
  GLParser.parse (PyInt n) = Ok d ->
  d = mkOpenGLDescriptor (Some (str_int n ++ lit ".0.0")) None None.
Proof.
  destruct (parse_int_cases n) as [[_ ->]|[_ ->]]; [|discriminate].
  now intros [= <-].
Qed.

Lemma nb_digits_ones (k : nat) : Decimal.nb_digits (ones k) = k.
Proof.
  unfold ones. induction k as [|k IH]; [reflexivity|].
  change (S (Decimal.nb_digits (Nat.iter k Decimal.D1 Decimal.Nil)) = S k).
  now rewrite IH.
Qed.

Lemma int_digits_repunit (k : nat) : int_digits (repunit (S k)) = ones (S k).
Proof.
  unfold int_digits, repunit. rewrite DecimalZ.to_of. reflexivity.
Qed.

Lemma int_digits_neg_repunit (k : nat) :
  int_digits (neg_repunit (S k)) = ones (S k).
Proof.
  unfold int_digits, neg_repunit. rewrite DecimalZ.to_of. reflexivity.
Qed.

Lemma dispatch_some (s : str) (f : family) :
  dispatch s = Some f <->
  exists i, nth_error families i = Some f /\ substring (keyword f) s /\
    forall j g, j < i -> nth_error families j = Some g ->
                ~ substring (keyword g) s.
Proof.
  unfold dispatch. split.
  - intros H. apply find_hit_first in H as (i & Hn & Hx & Hlt).
    exists i. repeat split; [assumption | now apply contains_spec |].
    intros j g Hj Hg. apply contains_false. now apply (Hlt j g).
  - intros (i & Hn & Hx & Hlt). apply (find_first_hit _ _ i f Hn).
    + now apply contains_spec.
    + intros j g Hj Hg. apply contains_false. now apply (Hlt j g).
Qed.

Lemma dispatch_none (s : str) :
  dispatch s = None <-> forall f, ~ substring (keyword f) s.
Proof.
  unfold dispatch. split.
  - intros H f. apply contains_false.
    apply (find_none _ _ H f (families_all f)).
  - intros H. destruct (find _ families) as [f|] eqn:E; [|reflexivity].
    apply find_some in E as [_ E]. apply contains_spec in E. now destruct (H f).
Qed.

(** A match of [\d+\.\d+(\.\d+)?] is never empty. *)
Lemma version_text_nonempty (v : str) : version_text v -> v <> [].
Proof.
  intros [(d & v' & [Hd _] & _ & ->)|(d & v' & [Hd _] & _ & ->)];
    destruct d; simpl; congruence.
Qed.

Lemma opengl_version_some (s v : str) :
  GLParser._opengl_version s = Some v <-> leftmost_match version_text s v.
Proof.
  rewrite opengl_version_find_first.
  apply (find_first_some_iff _ _ reads_version).
Qed.

Lemma opengl_version_none (s : str) :
  GLParser._opengl_version s = None <-> ~ occurs version_text s.
Proof.
  rewrite opengl_version_find_first.
  apply (find_first_none_iff _ _ reads_version).
Qed.

(** ** Driver versions, by shape *)

Lemma dotted_text_nonempty (n : nat) (v : str) : dotted_text n v -> v <> [].
Proof.
  destruct n as [|n]; simpl.
  - now intros [H _].
  - intros (d & v' & [Hd _] & _ & ->). destruct d; simpl; congruence.
Qed.

Lemma driver_number_nonempty (f : family) (v : str) :
  driver_number f v -> v <> [].
Proof.
  destruct f; cbn [driver_number]; try apply dotted_text_nonempty.
  intros (a & b & c & d & _ & _ & _ & _ & ->). discriminate.
Qed.

Lemma skipn_prefix (p v : str) : skipn (length p) (p ++ v) = v.
Proof.
  rewrite skipn_app, skipn_all, Nat.sub_diag. reflexivity.
Qed.

(** [driver_version] is what follows the literal in the leftmost match of
    the family's pattern. *)
Lemma driver_version_some (f : family) (s dv : str) :
  driver_version (matcher f s) = Some dv <->
  leftmost_match (driver_pattern f) s (driver_prefix f ++ dv).
Proof.
  rewrite driver_version_find_first.
  rewrite <- (find_first_some_iff _ _ (reads_driver f)). split.
  - destruct (find_first (eat_driver f) s) as [w|] eqn:E; [|discriminate].
    cbn [option_map]. intros H; injection H as <-.
    apply (find_first_leftmost _ _ (reads_driver f)) in E.
    destruct E as (_ & _ & _ & (num & _ & ->) & _).
    now rewrite skipn_prefix.
  - intros ->. cbn [option_map]. now rewrite skipn_prefix.
Qed.

Lemma driver_version_none (f : family) (s : str) :
  driver_version (matcher f s) = None <-> ~ occurs (driver_pattern f) s.
Proof.
  rewrite driver_version_find_first.
  rewrite <- (find_first_none_iff _ _ (reads_driver f) s).
  destruct (find_first (eat_driver f) s); cbn [option_map]; split;
    intros H; (discriminate H || reflexivity).
Qed.

Lemma driver_version_shape (f : family) (s dv : str) :
  driver_version (matcher f s) = Some dv ->
  driver_number f dv /\ substring dv s.
Proof.
  intros H. apply driver_version_some in H.
  destruct H as (pre & post & -> & (num & Hnum & E) & _).
  apply app_inv_head in E as ->. split; [exact Hnum|].
  exists (pre ++ driver_prefix f), post. list_norm. reflexivity.
Qed.

Lemma leftmost_match_substring P s v : leftmost_match P s v -> substring v s.
Proof.
  intros (pre & post & -> & _). now exists pre, post.
Qed.

(** ** [split] yields the tokens *)

Lemma tokens_space_cons (c : ascii) (s : str) (toks : list str) :
  is_space c = true -> tokens_of s toks -> tokens_of (c :: s) toks.
Proof.
  intros Hc H. destruct H as [w Hw | w t s toks Hw Ht Hn He Hr].
  - apply tokens_none. unfold all_space. simpl. now rewrite Hc.
  - apply (tokens_cons (c :: w) t s toks); try assumption.
    unfold all_space. simpl. now rewrite Hc.
Qed.

Lemma split_from_spec (s : str) : forall cur,
  match cur with
  | [] => tokens_of s (split_from [] s)
  | _ :: _ =>
      exists t r toks, s = t ++ r /\ no_space t /\ token_end r /\
        tokens_of r toks /\ split_from cur s = (rev cur ++ t) :: toks
  end.
Proof.
  induction s as [|c s IH]; intros cur.
  - destruct cur as [|a cur]; simpl.
    + now apply tokens_none.
    + exists [], [], []. rewrite !app_nil_r.
      split; [reflexivity|]. split; [reflexivity|]. split; [now left|].
      split; [now apply tokens_none | reflexivity].
  - cbn [split_from]. destruct (is_space c) eqn:Ec.
    + pose proof (IH []) as H0. cbn beta iota in H0.
      destruct cur as [|a cur].
      * now apply tokens_space_cons.
      * exists [], (c :: s), (split_from [] s). rewrite !app_nil_r.
        split; [reflexivity|]. split; [reflexivity|].
        split; [right; now exists c, s|].
        split; [now apply tokens_space_cons | reflexivity].
    + destruct (IH (c :: cur)) as (t & r & toks & -> & Ht & Hr & Htoks & E).
      assert (Hct : no_space (c :: t)).
      { unfold no_space. simpl. now rewrite Ec. }
      destruct cur as [|a cur].
      * rewrite E. simpl rev.
        apply (tokens_cons [] (c :: t) r toks); try assumption;
          [reflexivity | discriminate].
      * exists (c :: t), r, toks.
        split; [reflexivity|]. split; [assumption|]. split; [assumption|].
        split; [assumption|].
        rewrite E. cbn [rev]. now rewrite <- !app_assoc.
Qed.

Lemma split_tokens (s : str) : tokens_of s (split s).
Proof. exact (split_from_spec s []). Qed.

(** ** Renderer version and driver version *)

Lemma components_number (d : str) :
  forallb is_digit d = true -> components d = [d].
Proof.
  induction d as [|c d IH]; cbn [forallb components]; [reflexivity|].
  intros H. apply andb_prop in H as [Hc Hd].
  now rewrite (digit_not_dot c Hc), (IH Hd).
Qed.

Lemma components_number_dot (d x : str) :
  forallb is_digit d = true ->
  components (d ++ "."%char :: x) = d :: components x.
Proof.
  induction d as [|c d IH]; cbn [forallb components app]; [reflexivity|].
  intros H. apply andb_prop in H as [Hc Hd].
  now rewrite (digit_not_dot c Hc), (IH Hd).
Qed.

Lemma drop_digits_full (p : str) :
  length p <= length (drop_digits p) -> drop_digits p = p.
Proof.
  destruct p as [|c p]; simpl; [reflexivity|].
  destruct (is_digit c); [|reflexivity].
  pose proof (drop_digits_length p). lia.
Qed.

Lemma eat_dot_number_shorter (r r' : str) :
  bind (eat_dot r) eat_number = Some r' -> length r' < length r.
Proof.
  destruct (eat_dot r) as [r1|] eqn:E1; cbn [bind]; [|discriminate].
  intros E2. apply eat_dot_sound in E1 as ->.
  apply eat_number_sound in E2 as (d & -> & _). simpl. rewrite length_app. lia.
Qed.

(** What the renderer-version pattern reads at the start of a driver
    version: its first three components, unless it reads on into what
    follows the driver version. *)
Lemma eat_version_driver (f : family) (dv post : str) :
  driver_number f dv ->
  exists r, eat_version (dv ++ post) = Some r /\
            (length post <= length r ->
             text_between (dv ++ post) r = first_three dv).
Proof.
  intros Hdv.
  assert (H3 : dotted_text 3 dv -> exists r,
            eat_version (dv ++ post) = Some r /\
            (length post <= length r ->
             text_between (dv ++ post) r = first_three dv)).
  { intros (d1 & ? & Hd1 & (d2 & ? & Hd2 & (d3 & d4 & Hd3 & Hd4 & ->) & ->) & ->).
    exists ("."%char :: d4 ++ post). unfold eat_version, first_three.
    list_norm. cbn [eat_dotted].
    rewrite (eat_number_dot d1 _ Hd1). cbn [eat_dot Ascii.eqb Bool.eqb].
    rewrite (eat_number_dot d2 _ Hd2). cbn [eat_dot Ascii.eqb Bool.eqb bind].
    rewrite (eat_number_dot d3 _ Hd3). split; [reflexivity|]. intros _.
    rewrite !components_number_dot, (components_number d4)
      by (apply Hd1 || apply Hd2 || apply Hd3 || apply Hd4).
    cbn [firstn join_dots].
    replace (d1 ++ "."%char :: d2 ++ "."%char :: d3 ++ "."%char :: d4 ++ post)
      with ((d1 ++ "."%char :: d2 ++ "."%char :: d3) ++ "."%char :: d4 ++ post)
      by (list_norm; reflexivity).
    apply text_between_app. }
  assert (H2 : dotted_text 2 dv -> exists r,
            eat_version (dv ++ post) = Some r /\
            (length post <= length r ->
             text_between (dv ++ post) r = first_three dv)).
  { intros (d1 & ? & Hd1 & (d2 & d3 & Hd2 & Hd3 & ->) & ->).
    exists (drop_digits post). unfold eat_version, first_three.
    list_norm. cbn [eat_dotted].
    rewrite (eat_number_dot d1 _ Hd1). cbn [eat_dot Ascii.eqb Bool.eqb].
    rewrite (eat_number_dot d2 _ Hd2). cbn [eat_dot Ascii.eqb Bool.eqb bind].
    rewrite (eat_number_app d3 _ Hd3).
    split; [reflexivity|]. intros Hlen. rewrite (drop_digits_full post Hlen).
    rewrite !components_number_dot, (components_number d3)
      by (apply Hd1 || apply Hd2 || apply Hd3).
    cbn [firstn join_dots].
    replace (d1 ++ "."%char :: d2 ++ "."%char :: d3 ++ post)
      with ((d1 ++ "."%char :: d2 ++ "."%char :: d3) ++ post)
      by (list_norm; reflexivity).
    apply text_between_app. }
  destruct f; cbn [driver_number] in Hdv; auto.
  destruct Hdv as (a & b & c & d & Ha & Hb & Hc & Hd & ->).
  assert (Habc : is_number [a; b; c]).
  { split; [discriminate|]. simpl. now rewrite Ha, Hb, Hc. }
  unfold eat_version, first_three.
  change ((a :: b :: c :: "."%char :: d) ++ post)
    with ([a; b; c] ++ "."%char :: d ++ post).
  cbn [eat_dotted].
  rewrite (eat_number_dot [a; b; c] _ Habc). cbn [eat_dot Ascii.eqb Bool.eqb].
  rewrite (eat_number_app d _ Hd).
  destruct (bind (eat_dot (drop_digits post)) eat_number) as [r'|] eqn:E.
  - exists r'. split; [reflexivity|]. intros Hlen.
    apply eat_dot_number_shorter in E. pose proof (drop_digits_length post). lia.
  - exists (drop_digits post). split; [reflexivity|]. intros Hlen.
    rewrite (drop_digits_full post Hlen).
    change (a :: b :: c :: "."%char :: d) with ([a; b; c] ++ "."%char :: d).
    rewrite components_number_dot, (components_number d) by (apply Habc || apply Hd).
    cbn [firstn join_dots].
    replace ([a; b; c] ++ "."%char :: d ++ post)
      with (([a; b; c] ++ "."%char :: d) ++ post) by (list_norm; reflexivity).
    apply text_between_app.
Qed.

(** Every driver version starts with a renderer-version text. *)
Lemma driver_number_version (f : family) (dv : str) :
  driver_number f dv -> exists v r, version_text v /\ dv = v ++ r.
Proof.
  intros Hdv.
  destruct (eat_version_driver f dv [] Hdv) as (r & E & _).
  rewrite app_nil_r in E.
  destruct (reads_sound _ _ reads_version _ _ E) as (v & -> & Hv).
  now exists v, r.
Qed.

(** Every driver version ends with a renderer-version text. *)
Lemma driver_number_version_suffix (f : family) (dv : str) :
  driver_number f dv -> exists r v, version_text v /\ dv = r ++ v.
Proof.
  assert (H2 : dotted_text 2 dv -> exists r v, version_text v /\ dv = r ++ v).
  { intros H. exists [], dv. split; [now right | reflexivity]. }
  destruct f; cbn [driver_number]; try exact H2.
  - intros (d1 & v' & Hd1 & Hv' & ->).
    exists (d1 ++ ["."%char]), v'. split; [now right | list_norm; reflexivity].
  - intros (a & b & c & d & Ha & Hb & Hc & Hd & ->).
    exists [], (a :: b :: c :: "."%char :: d). split; [|reflexivity].
    left. exists [a; b; c], d. split; [|split; [exact Hd | reflexivity]].
    split; [discriminate|]. simpl. now rewrite Ha, Hb, Hc.
  - intros (d1 & v' & Hd1 & Hv' & ->).
    exists (d1 ++ ["."%char]), v'. split; [now right | list_norm; reflexivity].
Qed.

Lemma find_first_clear (P : str -> Prop) (eat : str -> option str) (pre x : str) :
  reads P eat ->
  (forall pre1 pre2 v, pre = pre1 ++ pre2 -> pre2 <> [] -> P v ->
     ~ prefix_of v (pre2 ++ x)) ->
  find_first eat (pre ++ x) = find_first eat x.
Proof.
  intros HR. induction pre as [|c pre IH]; intros Hn; [reflexivity|].
  cbn [app find_first]. destruct (eat (c :: pre ++ x)) as [r|] eqn:E.
  - exfalso. destruct (reads_sound _ _ HR _ _ E) as (v & Ev & Hv).
    apply (Hn [] (c :: pre) v eq_refl); [discriminate | exact Hv|].
    now exists r.
  - apply IH. intros pre1 pre2 v -> Hne Hv.
    now apply (Hn (c :: pre1) pre2 v).
Qed.

Lemma number_first_digit (d : str) :
  is_number d -> exists c t, d = c :: t /\ is_digit c = true.
Proof.
  intros [Hne Hd]. destruct d as [|c t]; [congruence|].
  simpl in Hd. apply andb_prop in Hd as [Hc _]. now exists c, t.
Qed.

Lemma number_last_digit (d : str) :
  is_number d -> exists t z, d = t ++ [z] /\ is_digit z = true.
Proof.
  intros [Hne Hd]. destruct (exists_last Hne) as (t & z & ->).
  exists t, z. split; [reflexivity|].
  rewrite forallb_app in Hd. apply andb_prop in Hd as [_ Hz].
  simpl in Hz. now apply andb_prop in Hz as [Hz _].
Qed.

Lemma version_text_first_digit (v : str) :
  version_text v -> exists c t, v = c :: t /\ is_digit c = true.
Proof.
  intros [(d & v' & Hd & _ & ->)|(d & v' & Hd & _ & ->)];
    destruct (number_first_digit d Hd) as (c & t & -> & Hc);
    now exists c, (t ++ "."%char :: v').
Qed.

Lemma version_text_last_digit (v : str) :
  version_text v -> exists t z, v = t ++ [z] /\ is_digit z = true.
Proof.
  intros [(d1 & d2 & _ & Hd & ->)|(d1 & ? & _ & (d2 & d3 & _ & Hd & ->) & ->)];
    destruct (number_last_digit _ Hd) as (t & z & -> & Hz).
  - exists (d1 ++ "."%char :: t), z. split; [list_norm; reflexivity | exact Hz].
  - exists (d1 ++ "."%char :: d2 ++ "."%char :: t), z.
    split; [list_norm; reflexivity | exact Hz].
Qed.

Lemma no_digit_app (p q : str) :
  no_digit (p ++ q) = no_digit p && no_digit q.
Proof. apply forallb_app. Qed.

Lemma no_digit_only_within (pre mid post : str) :
  no_digit pre = true -> no_digit post = true ->
  only_within version_text pre mid post.
Proof.
  intros Hpre Hpost pre' v post' E Hv. split.
  - destruct (app_eq_app _ _ _ _ E) as (l & [[-> E']|[-> E']]).
    + destruct l as [|a l]; [rewrite app_nil_r; lia|]. exfalso.
      destruct (version_text_first_digit v Hv) as (c & t & -> & Hc).
      simpl in E'. injection E' as <- _.
      rewrite no_digit_app in Hpre. apply andb_prop in Hpre as [_ Hpre].
      simpl in Hpre. now rewrite Hc in Hpre.
    + rewrite length_app. lia.
  - rewrite !app_assoc in E.
    destruct (app_eq_app _ _ _ _ E) as (l & [[E' ->]|[E' ->]]).
    + rewrite length_app. lia.
    + destruct l as [|a l]; [simpl; lia|]. exfalso.
      assert (Hne : a :: l <> []) by discriminate.
      destruct (exists_last Hne) as (t & z & El). rewrite El in *.
      destruct (version_text_last_digit v Hv) as (t' & z' & -> & Hz).
      rewrite !app_assoc in E'. apply app_inj_tail in E' as [_ <-].
      rewrite !no_digit_app in Hpost. apply andb_prop in Hpost as [Hpost _].
      apply andb_prop in Hpost as [_ Hpost]. simpl in Hpost.
      now rewrite Hz in Hpost.
Qed.

Lemma leftmost_match_sub (P Q : str -> Prop) (s v : str) :
  (forall w, Q w -> P w) -> leftmost_match P s v -> Q v -> leftmost_match Q s v.
Proof.
  intros HQP (pre & post & -> & _ & Hl & Hn) Hv.
  exists pre, post. repeat split; try assumption.
  - intros v' Hv'. apply Hl. now apply HQP.
  - intros pre1 pre2 v' E Hne Hv'. apply (Hn pre1 pre2 v' E Hne). now apply HQP.
Qed.

Lemma unprefixed_driver_version (f : family) (s dv : str) :
  driver_prefix f = [] ->
  driver_version (matcher f s) = Some dv <->
  leftmost_match (driver_number f) s dv.
Proof.
  intros Hp. rewrite driver_version_some, Hp. cbn [app].
  assert (E : forall w, driver_pattern f w <-> driver_number f w).
  { intros w. unfold driver_pattern, prefixed. rewrite Hp. split.
    - now intros (num & H & ->).
    - intros H. now exists w. }
  split; intros H.
  - apply (leftmost_match_sub (driver_pattern f)); [apply E | exact H |].
    destruct H as (_ & _ & _ & H & _). now apply E.
  - apply (leftmost_match_sub (driver_number f)); [apply E | exact H |].
    destruct H as (_ & _ & _ & H & _). now apply E.
Qed.

(** ** The generator *)

Lemma pulls_finished (n : nat) :
  pulls n Finished = (repeat (Raise StopIteration) n, Finished).
Proof.
  induction n as [|n IH]; [reflexivity|].
  cbn [pulls next repeat]. now rewrite IH.
Qed.

(** * The examples of the specification *)

Example parse_compat_example :
  GLParser.parse (PyStr (lit "4.6.0 Compatibility Profile Context 20.3.4.5")) =
  Ok (mkOpenGLDescriptor (Some (lit "4.6.0")) (Some (lit "compat"))
                         (Some (lit "20.3.4.5"))).
Proof. reflexivity. Qed.

Example parse_mesa_example :
  GLParser.parse (PyStr (lit "3.3 (Core Profile) Mesa 21.2.6")) =
  Ok (mkOpenGLDescriptor (Some (lit "3.3")) (Some (lit "mesa"))
                         (Some (lit "21.2.6"))).
Proof. reflexivity. Qed.

Example parse_nvidia_example :
  GLParser.parse (PyStr (lit "4.5.0 NVIDIA 470.63")) =
  Ok (mkOpenGLDescriptor (Some (lit "4.5.0")) (Some (lit "nvidia"))
                         (Some (lit "470.63"))).
Proof. reflexivity. Qed.

Example parse_build_example :
  GLParser.parse (PyStr (lit "3.1.0 - Build 26.20.100.7870")) =
  Ok (mkOpenGLDescriptor (Some (lit "3.1.0")) (Some (lit "build"))
                         (Some (lit "26.20.100.7870"))).
Proof. reflexivity. Qed.

Example parse_intel_example :
  GLParser.parse (PyStr (lit "4.1 INTEL-14.7.7")) =
  Ok (mkOpenGLDescriptor (Some (lit "4.1")) (Some (lit "intel"))
                         (Some (lit "14.7.7"))).
Proof. reflexivity. Qed.

Example parse_unknown_example :
  GLParser.parse (PyStr (lit "totally unknown string")) =
  Raise (NotImplementedError (lit "Unimplemented for totally unknown string")).
Proof. reflexivity. Qed.

(** [\d{3}] must be followed by the dot: four digits after 'NVIDIA ' give
    no driver version. *)
Example parse_nvidia_four_digits :
  GLParser.parse (PyStr (lit "NVIDIA 4700.63")) =
  Ok (mkOpenGLDescriptor (Some (lit "4700.63")) (Some (lit "nvidia")) None).
Proof. reflexivity. Qed.

Example parse_negative_int :
  GLParser.parse (PyInt (-12)) =
  Ok (mkOpenGLDescriptor (Some (lit "-12.0.0")) None None).
Proof. reflexivity. Qed.

Example parse_runtime_dotnet_example :
  parse_runtime (Some (lit ".NET Framework 4.8")) =
  Ok (Some (mkRuntime (lit ".net") (lit "4.8"))).
Proof. reflexivity. Qed.

Example parse_runtime_garbage_example :
  parse_runtime (Some (lit "garbage")) =
  Raise (ValueError (lit "Invalid runtime value: garbage")).
Proof. reflexivity. Qed.

(** * The claims *)

(** C1.  [parse] tests a string for the keywords 'Compatibility Profile
    Context', 'Mesa', 'NVIDIA', 'INTEL', 'Build' in that order, each test
    being an exact-character substring test at any position, and the first
    keyword present decides: when the keyword of the [i]-th family occurs
    in [s] and no keyword of an earlier family does, whatever later
    keywords [s] also contains, the result is that family's matcher
    applied to [s], whose [driver] is the family's name. *)
Theorem C1_first_keyword_wins (s : str) (i : nat) (f : family) :
  nth_error families i = Some f ->
  substring (keyword f) s ->
  (forall j g, j < i -> nth_error families j = Some g ->
               ~ substring (keyword g) s) ->
  GLParser.parse (PyStr s) = Ok (matcher f s) /\
  driver (matcher f s) = Some (family_name f).
Proof.
  intros Hn Hf Hlt.
  assert (Hd : dispatch s = Some f) by (apply dispatch_some; now exists i).
  rewrite parse_dispatch, Hd. split; [reflexivity | apply matcher_driver].
Qed.

Lemma C1_witness :
  GLParser.parse (PyStr (lit "4.5 Mesa 21.0.3 on NVIDIA")) =
    Ok (matcher Mesa (lit "4.5 Mesa 21.0.3 on NVIDIA")) /\
  driver (matcher Mesa (lit "4.5 Mesa 21.0.3 on NVIDIA")) = Some (lit "mesa").
Proof.
  apply (C1_first_keyword_wins (lit "4.5 Mesa 21.0.3 on NVIDIA") 1 Mesa).
  - reflexivity.
  - exists (lit "4.5 "), (lit " 21.0.3 on NVIDIA"). reflexivity.
  - intros j g Hj Hg. apply contains_false.
    destruct j as [|j]; [|lia]. injection Hg as <-. reflexivity.
Defined.

(** C2, as the code has it.  A string that contains none of the five
    keywords and contains a [MAJOR.MINOR[.PATCH]] text is classified as
    'generic', with the leftmost such text as [version] and no
    [driver_version]; one that contains no such text raises the error
    that carries the string.  No string and no float makes [parse] fail
    in any other way; an integer makes it fail exactly when its text
    would have more digits than the interpreter converts, with a
    [ValueError]. *)
Theorem C2_generic_or_unrecognized (s : str) :
  (forall f, ~ substring (keyword f) s) ->
  (occurs version_text s ->
     exists v, leftmost_match version_text s v /\
       GLParser.parse (PyStr s) =
       Ok (mkOpenGLDescriptor (Some v) (Some (lit "generic")) None)) /\
  (~ occurs version_text s ->
     GLParser.parse (PyStr s) =
     Raise (NotImplementedError (lit "Unimplemented for " ++ s))) /\
  (forall x e, GLParser.parse x = Raise e <->
     (exists s', x = PyStr s' /\ (forall f, ~ substring (keyword f) s') /\
        ~ occurs version_text s' /\
        e = NotImplementedError (lit "Unimplemented for " ++ s')) \/
     (exists n, x = PyInt n /\
        int_max_str_digits < Decimal.nb_digits (int_digits n) /\
        e = ValueError int_limit_message)).
Proof.
  assert (Hgen : forall s0, dispatch s0 = None -> occurs version_text s0 ->
    exists v, leftmost_match version_text s0 v /\
      GLParser.parse (PyStr s0) =
      Ok (mkOpenGLDescriptor (Some v) (Some (lit "generic")) None)).
  { intros s0 Hno Hocc. rewrite parse_dispatch, Hno.
    destruct (GLParser._opengl_version s0) as [v|] eqn:E.
    - pose proof (proj1 (opengl_version_some s0 v) E) as Hl.
      exists v. split; [exact Hl|].
      destruct v as [|c v]; [|reflexivity].
      destruct Hl as (_ & _ & _ & Hv & _). now apply version_text_nonempty in Hv.
    - now apply opengl_version_none in E. }
  assert (Hraise : forall s0, dispatch s0 = None -> ~ occurs version_text s0 ->
    GLParser.parse (PyStr s0) =
    Raise (NotImplementedError (lit "Unimplemented for " ++ s0))).
  { intros s0 Hno Hocc. rewrite parse_dispatch, Hno.
    apply opengl_version_none in Hocc. now rewrite Hocc. }
  intros Hno. apply dispatch_none in Hno.
  split; [now apply Hgen|]. split; [now apply Hraise|].
  intros x e. split.
  - destruct x as [n|t|s']; intros H.
    + right. exists n. split; [reflexivity|].
      destruct (parse_int_cases n) as [[_ E]|[Hlong E]]; rewrite E in H;
        [discriminate|]. split; [exact Hlong | now injection H as <-].
    + discriminate H.
    + left. rewrite parse_dispatch in H.
      destruct (dispatch s') as [f|] eqn:Ed; [discriminate|].
      exists s'. split; [reflexivity|]. split; [now apply dispatch_none|].
      destruct (GLParser._opengl_version s') as [[|c v]|] eqn:E.
      * apply opengl_version_some in E. destruct E as (_ & _ & _ & Hv & _).
        now apply version_text_nonempty in Hv.
      * discriminate.
      * split; [now apply opengl_version_none | now injection H as <-].
  - intros [(s' & -> & Hk & Hocc & ->)|(n & -> & Hlong & ->)].
    + apply Hraise; [now apply dispatch_none | exact Hocc].
    + now apply parse_int_long.
Qed.

Lemma C2_witness :
  (exists v, leftmost_match version_text (lit "OpenGL ES 3.2 build 7") v /\
     GLParser.parse (PyStr (lit "OpenGL ES 3.2 build 7")) =
     Ok (mkOpenGLDescriptor (Some v) (Some (lit "generic")) None)) /\
  GLParser.parse (PyStr (lit "totally unknown string")) =
  Raise (NotImplementedError (lit "Unimplemented for totally unknown string")).
Proof.
  split.
  - refine (proj1 (C2_generic_or_unrecognized (lit "OpenGL ES 3.2 build 7") _) _).
    + intros f. apply contains_false. destruct f; reflexivity.
    + exists (lit "OpenGL ES "), (lit "3.2"), (lit " build 7").
      split; [reflexivity|]. left. exists (lit "3"), (lit "2").
      repeat split; discriminate.
  - refine (proj1 (proj2 (C2_generic_or_unrecognized
                            (lit "totally unknown string") _)) _).
    + intros f. apply contains_false. destruct f; reflexivity.
    + apply opengl_version_none. reflexivity.
Defined.

(** An integer of 4301 digits is neither a string without keywords nor
    accepted: [parse] fails on it, with a [ValueError]. *)
Lemma C2_counterexample :
  GLParser.parse (PyInt (neg_repunit 4301)) =
    Raise (ValueError int_limit_message) /\
  forall s, PyInt (neg_repunit 4301) <> PyStr s.
Proof.
  split; [|discriminate]. apply parse_int_long.
  rewrite int_digits_neg_repunit, nb_digits_ones.
  apply Nat.lt_succ_diag_r.
Qed.

(** C3.  A string that contains a family keyword is never rejected: it is
    classified by the first family (in dispatch order) whose keyword it
    contains, [driver] is that family's name, and [driver_version] is
    absent exactly when the family's driver-version pattern occurs nowhere
    in the string. *)
Theorem C3_keyword_never_fails (s : str) :
  (exists f, substring (keyword f) s) ->
  exists f d,
    dispatch s = Some f /\ substring (keyword f) s /\
    GLParser.parse (PyStr s) = Ok d /\
    driver d = Some (family_name f) /\
    (driver_version d = None <-> ~ occurs (driver_pattern f) s).
Proof.
  intros (f0 & Hf0).
  destruct (dispatch s) as [f|] eqn:Ed.
  - exists f, (matcher f s). split; [reflexivity|].
    split; [apply dispatch_some in Ed as (i & _ & H & _); exact H|].
    split; [now rewrite parse_dispatch, Ed|].
    split; [apply matcher_driver|].
    apply driver_version_none.
  - exfalso. apply (proj1 (dispatch_none s) Ed f0 Hf0).
Qed.

Lemma C3_witness :
  exists f d,
    dispatch (lit "4.6 NVIDIA driver") = Some f /\
    substring (keyword f) (lit "4.6 NVIDIA driver") /\
    GLParser.parse (PyStr (lit "4.6 NVIDIA driver")) = Ok d /\
    driver d = Some (family_name f) /\
    (driver_version d = None <->
     ~ occurs (driver_pattern f) (lit "4.6 NVIDIA driver")).
Proof.
  apply (C3_keyword_never_fails (lit "4.6 NVIDIA driver")).
  exists Nvidia, (lit "4.6 "), (lit " driver"). reflexivity.
Defined.

(** C4.  For a string dispatched to any of the five family matchers,
    [version] is the leftmost [MAJOR.MINOR[.PATCH]] match in the whole
    string, whatever the family, and it is absent exactly when no such
    text occurs anywhere in the string. *)
Theorem C4_shared_renderer_version (s : str) (f : family) :
  dispatch s = Some f ->
  exists d, GLParser.parse (PyStr s) = Ok d /\
    (forall v, version d = Some v <-> leftmost_match version_text s v) /\
    (version d = None <-> ~ occurs version_text s).
Proof.
  intros Hd. exists (matcher f s). split; [now rewrite parse_dispatch, Hd|].
  rewrite matcher_version. split.
  - intros v. apply opengl_version_some.
  - apply opengl_version_none.
Qed.

Lemma C4_witness :
  exists d, GLParser.parse (PyStr (lit "3.3 (Core Profile) Mesa 21.2.6")) = Ok d /\
    (forall v, version d = Some v <->
       leftmost_match version_text (lit "3.3 (Core Profile) Mesa 21.2.6") v) /\
    (version d = None <->
       ~ occurs version_text (lit "3.3 (Core Profile) Mesa 21.2.6")).
Proof.
  apply (C4_shared_renderer_version (lit "3.3 (Core Profile) Mesa 21.2.6") Mesa).
  reflexivity.
Defined.

(** C5.  In every descriptor [parse] returns, a [driver_version] comes
    with a [driver], and no field is the empty string; for a string
    input, [version] and [driver_version] are texts that occur in the
    input. *)
Theorem C5_descriptor_invariant (x : pyval) (d : OpenGLDescriptor) :
  well_formed x = true ->
  GLParser.parse x = Ok d ->
  (driver_version d <> None -> driver d <> None) /\
  version d <> Some [] /\ driver d <> Some [] /\ driver_version d <> Some [] /\
  (forall s, x = PyStr s ->
     (forall v, version d = Some v -> substring v s) /\
     (forall v, driver_version d = Some v -> substring v s)).
Proof.
  intros Hwf H. destruct x as [n|t|s].
  - apply parse_int_ok in H as ->. cbn [version driver driver_version].
    split; [congruence|]. split; [|split; [|split]]; try discriminate.
    destruct (str_int n); discriminate.
  - injection H as <-. cbn [version driver driver_version]. unfold str_float.
    split; [congruence|]. split; [|split; [|split]]; try discriminate.
    destruct t; [discriminate Hwf | discriminate].
  - rewrite parse_dispatch in H. destruct (dispatch s) as [f|] eqn:Ed.
    + injection H as <-. rewrite matcher_driver, matcher_version.
      split; [discriminate|]. split; [|split; [|split]].
      * intros E. apply opengl_version_some in E.
        destruct E as (_ & _ & _ & Hv & _). now apply version_text_nonempty in Hv.
      * destruct f; discriminate.
      * intros E. apply driver_version_shape in E as [Hv _].
        now apply driver_number_nonempty in Hv.
      * intros s' [= <-]. split; intros v E.
        -- apply opengl_version_some in E. now apply leftmost_match_substring in E.
        -- now apply driver_version_shape in E.
    + destruct (GLParser._opengl_version s) as [[|c v]|] eqn:E; try discriminate.
      injection H as <-. cbn [version driver driver_version].
      split; [congruence|]. split; [|split; [|split]]; try discriminate.
      intros s' [= <-]. split.
      * intros v0 [= <-]. apply opengl_version_some in E.
        now apply leftmost_match_substring in E.
      * intros v0 [=].
Qed.

Lemma C5_witness :
  let d := matcher Build (lit "3.1.0 - Build 26.20.100.7870") in
  (driver_version d <> None -> driver d <> None) /\
  version d <> Some [] /\ driver d <> Some [] /\ driver_version d <> Some [] /\
  (forall s, PyStr (lit "3.1.0 - Build 26.20.100.7870") = PyStr s ->
     (forall v, version d = Some v -> substring v s) /\
     (forall v, driver_version d = Some v -> substring v s)).
Proof.
  apply (C5_descriptor_invariant (PyStr (lit "3.1.0 - Build 26.20.100.7870"))).
  - reflexivity.
  - reflexivity.
Defined.

(** C6, as the code has it.  [parse_runtime(None)] is [None].  A string
    that contains 'Mono' gives the provider 'mono' with the second
    whitespace-delimited token as version; otherwise one that contains
    '.NET' gives the provider '.net' with the third token; in both cases a
    string with too few tokens raises [IndexError].  A string with neither
    marker raises [ValueError] with a message that ends in the string. *)
Theorem C6_parse_runtime_outcomes (s : str) :
  parse_runtime None = Ok None /\
  tokens_of s (split s) /\
  (substring (lit "Mono") s ->
     parse_runtime (Some s) =
     match nth_error (split s) 1 with
     | Some tok => Ok (Some (mkRuntime (lit "mono") tok))
     | None => Raise IndexError
     end) /\
  (~ substring (lit "Mono") s -> substring (lit ".NET") s ->
     parse_runtime (Some s) =
     match nth_error (split s) 2 with
     | Some tok => Ok (Some (mkRuntime (lit ".net") tok))
     | None => Raise IndexError
     end) /\
  (~ substring (lit "Mono") s -> ~ substring (lit ".NET") s ->
     parse_runtime (Some s) =
     Raise (ValueError (lit "Invalid runtime value: " ++ s))).
Proof.
  split; [reflexivity|]. split; [apply split_tokens|].
  unfold parse_runtime, parse_mono_runtime, parse_dotnet_runtime, index, rbind.
  repeat split.
  - intros H. apply contains_spec in H. rewrite H.
    destruct (nth_error (split s) 1); reflexivity.
  - intros H1 H2. apply contains_false in H1. apply contains_spec in H2.
    rewrite H1, H2. destruct (nth_error (split s) 2); reflexivity.
  - intros H1 H2. apply contains_false in H1. apply contains_false in H2.
    now rewrite H1, H2.
Qed.

Lemma C6_witness :
  parse_runtime (Some (lit "Mono 6.12.0.122 (tarball)")) =
  Ok (Some (mkRuntime (lit "mono") (lit "6.12.0.122"))).
Proof.
  apply (C6_parse_runtime_outcomes (lit "Mono 6.12.0.122 (tarball)")).
  exists [], (lit " 6.12.0.122 (tarball)"). reflexivity.
Defined.

(** The string 'Mono' contains the marker 'Mono' and has one token:
    [parse_runtime] raises [IndexError], which is neither a [Runtime] nor
    the invalid-runtime error. *)
Lemma C6_counterexample :
  contains (lit "Mono") (lit "Mono") = true /\
  split (lit "Mono") = [lit "Mono"] /\
  parse_runtime (Some (lit "Mono")) = Raise IndexError /\
  (forall r, parse_runtime (Some (lit "Mono")) <> Ok r) /\
  (forall msg, parse_runtime (Some (lit "Mono")) <> Raise (ValueError msg)).
Proof.
  repeat split; try reflexivity; intros; discriminate.
Qed.

(** C7, as the code has it.  The generator yields the results of
    [parse] on the inputs, in order, one per call of [next], up to the
    first input [parse] rejects, and parses an input only when it is
    asked for it.  After the inputs of [before], all accepted by [parse],
    the next call returns or raises exactly what [parse] does on the next
    input [x], whatever inputs [after] follow.  When all inputs are
    accepted there is one yield per input and then [StopIteration].  An
    exception of [parse] leaves the generator finished: later calls raise
    [StopIteration] and the inputs after the rejected one are never
    parsed. *)
Theorem C7_lazy_in_order (before after : list pyval) (x : pyval)
  (ds : list OpenGLDescriptor) :
  Forall2 (fun y d => GLParser.parse y = Ok d) before ds ->
  fst (pulls (S (length before)) (parse_gl_versions (before ++ x :: after))) =
    map Ok ds ++ [GLParser.parse x] /\
  pulls (length before) (parse_gl_versions before) = (map Ok ds, Suspended []) /\
  pulls (S (length before)) (parse_gl_versions before) =
    (map Ok ds ++ [Raise StopIteration], Finished) /\
  (forall e n, GLParser.parse x = Raise e ->
     pulls (S (length before) + n) (parse_gl_versions (before ++ x :: after)) =
     (map Ok ds ++ Raise e :: repeat (Raise StopIteration) n, Finished)).
Proof.
  unfold parse_gl_versions. intros H.
  assert (Hpre : forall n rest,
    pulls (length before + n) (Suspended (before ++ rest)) =
    (map Ok ds ++ fst (pulls n (Suspended rest)),
     snd (pulls n (Suspended rest)))).
  { intros n rest. induction H as [|y d ys ds' Hy Hys IH].
    - simpl. now destruct (pulls n (Suspended rest)).
    - cbn [length Nat.add pulls app next]. rewrite Hy, IH. reflexivity. }
  split; [|split; [|split]].
  - replace (S (length before)) with (length before + 1) by lia.
    rewrite Hpre. cbn [fst pulls next].
    destruct (GLParser.parse x); reflexivity.
  - specialize (Hpre 0 []). rewrite Nat.add_0_r, !app_nil_r in Hpre. exact Hpre.
  - specialize (Hpre 1 []). rewrite app_nil_r in Hpre.
    replace (S (length before)) with (length before + 1) by lia. exact Hpre.
  - intros e n He.
    replace (S (length before) + n) with (length before + S n) by lia.
    rewrite Hpre. cbn [pulls next]. rewrite He, pulls_finished. reflexivity.
Qed.

Lemma C7_witness :
  fst (pulls 2 (parse_gl_versions
         [PyInt 3; PyStr (lit "unknown"); PyStr (lit "4.1 INTEL-14.7.7")])) =
  [Ok (mkOpenGLDescriptor (Some (lit "3.0.0")) None None);
   Raise (NotImplementedError (lit "Unimplemented for unknown"))].
Proof.
  apply (C7_lazy_in_order [PyInt 3] [PyStr (lit "4.1 INTEL-14.7.7")]
           (PyStr (lit "unknown"))
           [mkOpenGLDescriptor (Some (lit "3.0.0")) None None]).
  constructor; [reflexivity | constructor].
Defined.

(** Two inputs, the first rejected: the second call of [next] raises
    [StopIteration], although [parse] accepts the second input.  There is
    no result for it. *)
Lemma C7_counterexample :
  pulls 2 (parse_gl_versions [PyStr (lit "unknown"); PyInt 3]) =
    ([Raise (NotImplementedError (lit "Unimplemented for unknown"));
      Raise StopIteration], Finished) /\
  GLParser.parse (PyInt 3) =
    Ok (mkOpenGLDescriptor (Some (lit "3.0.0")) None None).
Proof.
  split; reflexivity.
Qed.

(** C8, as the code has it.  For every integer [n] whose decimal text
    has at most 4300 digits, [parse] returns the descriptor whose
    [version] is the decimal text of [n] followed by '.0.0' and whose
    [driver] and [driver_version] are absent, and the decimal text reads
    back as [n].  For an integer with more digits the conversion to text
    raises [ValueError], and so does [parse]. *)
Theorem C8_integer_input (n : Z) :
  (Decimal.nb_digits (int_digits n) <= int_max_str_digits ->
     GLParser.parse (PyInt n) =
       Ok (mkOpenGLDescriptor (Some (str_int n ++ lit ".0.0")) None None) /\
     option_map Z.of_int
       (NilEmpty.int_of_string (string_of_list_ascii (str_int n))) = Some n) /\
  (int_max_str_digits < Decimal.nb_digits (int_digits n) ->
     GLParser.parse (PyInt n) = Raise (ValueError int_limit_message)).
Proof.
  split; [|apply parse_int_long].
  intros Hn. split; [now apply parse_int_short|].
  unfold str_int, lit. rewrite string_of_list_ascii_of_string.
  replace (NilZero.string_of_int (Z.to_int n))
    with (NilEmpty.string_of_int (Z.to_int n)).
  - rewrite NilEmpty.isi. simpl. f_equal. apply DecimalZ.of_to.
  - destruct n as [|p|p]; [reflexivity| |]; simpl; unfold NilZero.string_of_uint;
      pose proof (DecimalPos.Unsigned.to_uint_nonnil p) as Hp;
      destruct (Pos.to_uint p); congruence.
Qed.

Lemma C8_witness :
  GLParser.parse (PyInt 7) =
    Ok (mkOpenGLDescriptor (Some (str_int 7 ++ lit ".0.0")) None None) /\
  option_map Z.of_int
    (NilEmpty.int_of_string (string_of_list_ascii (str_int 7))) = Some 7%Z.
Proof.
  apply (proj1 (C8_integer_input 7)). apply Nat.leb_le. reflexivity.
Defined.

(** The integer written with 4301 digits 1: [parse] does not succeed on
    it, it raises [ValueError]. *)
Lemma C8_counterexample :
  GLParser.parse (PyInt (repunit 4301)) = Raise (ValueError int_limit_message) /\
  forall d, GLParser.parse (PyInt (repunit 4301)) <> Ok d.
Proof.
  assert (H : GLParser.parse (PyInt (repunit 4301)) =
              Raise (ValueError int_limit_message)).
  { apply parse_int_long. rewrite int_digits_repunit, nb_digits_ones.
    apply Nat.lt_succ_diag_r. }
  split; [exact H|]. intros d. rewrite H. discriminate.
Qed.

(** C9.  For a string dispatched to the Mesa matcher, [driver_version] is
    the leftmost text of three numbers separated by dots anywhere in the
    string, with no regard to where 'Mesa' stands; so when the renderer
    version found has three components, [driver_version] is that same
    text.  For the compat matcher [driver_version] is likewise the
    leftmost text of four numbers separated by dots. *)
Theorem C9_driver_version_leftmost_anywhere (s : str) :
  (dispatch s = Some Mesa ->
     exists d, GLParser.parse (PyStr s) = Ok d /\
       (forall dv, driver_version d = Some dv <->
                   leftmost_match (dotted_text 2) s dv) /\
       (forall v, version d = Some v -> dotted_text 2 v ->
                  driver_version d = Some v)) /\
  (dispatch s = Some Compat ->
     exists d, GLParser.parse (PyStr s) = Ok d /\
       (forall dv, driver_version d = Some dv <->
                   leftmost_match (dotted_text 3) s dv)).
Proof.
  split; intros Hd.
  - exists (matcher Mesa s). split; [now rewrite parse_dispatch, Hd|].
    split.
    + intros dv. now apply (unprefixed_driver_version Mesa).
    + intros v Hv H3. apply (unprefixed_driver_version Mesa); [reflexivity|].
      rewrite matcher_version in Hv. apply opengl_version_some in Hv.
      apply (leftmost_match_sub version_text); [now right | exact Hv | exact H3].
  - exists (matcher Compat s). split; [now rewrite parse_dispatch, Hd|].
    intros dv. now apply (unprefixed_driver_version Compat).
Qed.

Lemma C9_witness :
  (exists d,
     GLParser.parse (PyStr (lit "4.5.0 (Core Profile) Mesa 21.2")) = Ok d /\
     version d = Some (lit "4.5.0") /\ driver_version d = Some (lit "4.5.0")) /\
  (exists d,
     GLParser.parse
       (PyStr (lit "1.2.3.4 Compatibility Profile Context 20.3.4.5")) = Ok d /\
     leftmost_match (dotted_text 3)
       (lit "1.2.3.4 Compatibility Profile Context 20.3.4.5") (lit "1.2.3.4")).
Proof.
  split.
  - destruct (proj1 (C9_driver_version_leftmost_anywhere
                       (lit "4.5.0 (Core Profile) Mesa 21.2")) eq_refl)
      as (d & Hp & _ & H).
    exists d. split; [exact Hp|].
    assert (Hv : version d = Some (lit "4.5.0")).
    { vm_compute in Hp. injection Hp as <-. reflexivity. }
    split; [exact Hv|]. apply (H _ Hv).
    exists (lit "4"), (lit "5.0"). split; [split; [discriminate | reflexivity]|].
    split; [|reflexivity].
    exists (lit "5"), (lit "0"). repeat split; discriminate.
  - destruct (proj2 (C9_driver_version_leftmost_anywhere
                       (lit "1.2.3.4 Compatibility Profile Context 20.3.4.5"))
                eq_refl) as (d & Hp & H).
    exists d. split; [exact Hp|]. apply H.
    vm_compute in Hp. injection Hp as <-. reflexivity.
Defined.

(** C10.  Take a string dispatched to a family matcher in which the
    family's driver-version pattern occurs, with the driver version [dv],
    and in which every [MAJOR.MINOR[.PATCH]] text lies within [dv].  Then
    [driver_version] is [dv] and [version] is not absent: it is the first
    three numeric components of [dv] (all of them when there are
    fewer). *)
Theorem C10_version_from_driver_digits (s : str) (f : family)
  (pre dv post : str) :
  dispatch s = Some f ->
  s = pre ++ driver_prefix f ++ dv ++ post ->
  driver_number f dv ->
  only_within version_text (pre ++ driver_prefix f) dv post ->
  exists d, GLParser.parse (PyStr s) = Ok d /\
    driver_version d = Some dv /\
    version d = Some (first_three dv).
Proof.
  intros Hd -> Hnum Hin. exists (matcher f (pre ++ driver_prefix f ++ dv ++ post)).
  split; [now rewrite parse_dispatch, Hd|]. split.
  - apply driver_version_some. exists pre, post.
    split; [list_norm; reflexivity|].
    split; [now exists dv|]. split.
    + intros v' (num' & Hnum' & ->) (x & E).
      destruct (driver_number_version_suffix f num' Hnum') as (r & w & Hw & ->).
      assert (E' : dv ++ post = r ++ w ++ x).
      { apply (app_inv_head (driver_prefix f)). revert E. list_norm.
        intros E. exact E. }
      destruct (Hin (pre ++ driver_prefix f ++ r) w x) as [_ Hl];
        [rewrite E'; list_norm; reflexivity | exact Hw|].
      apply (f_equal (@length ascii)) in E'. rewrite !length_app in *. lia.
    + intros pre1 pre2 v' -> Hne (num' & Hnum' & ->) (x & E).
      destruct (driver_number_version f num' Hnum') as (v0 & r0 & Hv0 & ->).
      destruct (Hin (pre1 ++ driver_prefix f) v0 (r0 ++ x)) as [Hl _];
        [|exact Hv0|].
      * revert E. list_norm. intros E. now rewrite E.
      * rewrite !length_app in Hl. destruct pre2; [congruence | simpl in Hl; lia].
  - rewrite matcher_version, opengl_version_find_first.
    replace (pre ++ driver_prefix f ++ dv ++ post)
      with ((pre ++ driver_prefix f) ++ dv ++ post) by (list_norm; reflexivity).
    rewrite (find_first_clear version_text eat_version _ _ reads_version).
    + destruct (eat_version_driver f dv post Hnum) as (r & E & Ht).
      destruct (reads_sound _ _ reads_version _ _ E) as (v & Ev & Hv).
      assert (Hlen : length post <= length r).
      { apply (Hin (pre ++ driver_prefix f) v r); [now rewrite Ev | exact Hv]. }
      destruct dv as [|c dv]; [now apply driver_number_nonempty in Hnum|].
      cbn [find_first app] in *. rewrite E. now rewrite (Ht Hlen).
    + intros pre1 pre2 v Ep Hne Hv (post' & E).
      destruct (Hin pre1 v post') as [Hl _]; [|exact Hv|].
      * rewrite Ep, <- E. list_norm. reflexivity.
      * rewrite Ep, length_app in Hl.
        destruct pre2; [congruence | simpl in Hl; lia].
Qed.

Lemma C10_witness :
  exists d,
    GLParser.parse (PyStr (lit "Compatibility Profile Context 20.3.4.5")) = Ok d /\
    driver_version d = Some (lit "20.3.4.5") /\
    version d = Some (lit "20.3.4").
Proof.
  apply (C10_version_from_driver_digits
           (lit "Compatibility Profile Context 20.3.4.5") Compat
           (lit "Compatibility Profile Context ") (lit "20.3.4.5") []).
  - reflexivity.
  - reflexivity.
  - exists (lit "20"), (lit "3.4.5"). split; [split; [discriminate | reflexivity]|].
    split; [|reflexivity].
    exists (lit "3"), (lit "4.5"). split; [split; [discriminate | reflexivity]|].
    split; [|reflexivity].
    exists (lit "4"), (lit "5"). repeat split; discriminate.
  - apply no_digit_only_within; reflexivity.
Defined.

(** * Further properties of the classifier *)

Lemma parse_str_version (s : str) (d : OpenGLDescriptor) :
  GLParser.parse (PyStr s) = Ok d -> version d = GLParser._opengl_version s.
Proof.
  rewrite parse_dispatch. destruct (dispatch s) as [f|].
  - intros [= <-]. apply matcher_version.
  - destruct (GLParser._opengl_version s) as [[|c v]|]; try discriminate.
    now intros [= <-].
Qed.

Lemma number_snoc (d : str) (c : ascii) :
  is_number d -> is_digit c = true -> is_number (d ++ [c]).
Proof.
  intros [Hne Hd] Hc. split.
  - destruct d; discriminate.
  - rewrite forallb_app, Hd. simpl. now rewrite Hc.
Qed.

Lemma number_cons (d : str) (c : ascii) :
  is_number d -> is_digit c = true -> is_number (c :: d).
Proof.
  intros [Hne Hd] Hc. split; [discriminate|]. simpl. now rewrite Hc, Hd.
Qed.

Lemma dotted_text_snoc (n : nat) : forall (v : str) (c : ascii),
  dotted_text n v -> is_digit c = true -> dotted_text n (v ++ [c]).
Proof.
  induction n as [|n IH]; intros v c Hv Hc; cbn [dotted_text] in *.
  - now apply number_snoc.
  - destruct Hv as (d & v' & Hd & Hv' & ->).
    exists d, (v' ++ [c]). split; [exact Hd|]. split; [now apply IH|].
    list_norm. reflexivity.
Qed.

Lemma dotted_text_cons (n : nat) (v : str) (c : ascii) :
  dotted_text (S n) v -> is_digit c = true -> dotted_text (S n) (c :: v).
Proof.
  intros (d & v' & Hd & Hv' & ->) Hc.
  exists (c :: d), v'. split; [now apply number_cons|]. now split.
Qed.

Lemma version_text_snoc (v : str) (c : ascii) :
  version_text v -> is_digit c = true -> version_text (v ++ [c]).
Proof.
  intros [H|H] Hc; [left | right]; now apply dotted_text_snoc.
Qed.

Lemma version_text_cons (v : str) (c : ascii) :
  version_text v -> is_digit c = true -> version_text (c :: v).
Proof.
  intros [H|H] Hc; [left | right]; now apply dotted_text_cons.
Qed.

Lemma driver_number_snoc (f : family) (v : str) (c : ascii) :
  driver_number f v -> is_digit c = true -> driver_number f (v ++ [c]).
Proof.
  destruct f; cbn [driver_number]; try apply dotted_text_snoc.
  intros (a & b & e & d & Ha & Hb & He & Hd & ->) Hc.
  exists a, b, e, (d ++ [c]). repeat split; try assumption.
  - destruct d; discriminate.
  - destruct Hd as [_ Hd]. rewrite forallb_app, Hd. simpl. now rewrite Hc.
Qed.

(** A match of a shape that a digit extends to the right is not followed
    by a digit. *)
Lemma leftmost_match_not_followed (P : str -> Prop) (s v : str) :
  (forall w c, P w -> is_digit c = true -> P (w ++ [c])) ->
  leftmost_match P s v ->
  exists pre post, s = pre ++ v ++ post /\
    (forall pre1 pre2 v', pre = pre1 ++ pre2 -> pre2 <> [] -> P v' ->
       ~ prefix_of v' (pre2 ++ v ++ post)) /\
    forall c post', post = c :: post' -> is_digit c = false.
Proof.
  intros Hext (pre & post & -> & Hv & Hl & Hn).
  exists pre, post. split; [reflexivity|]. split; [exact Hn|].
  intros c post' -> . destruct (is_digit c) eqn:Hc; [|reflexivity].
  exfalso. specialize (Hl (v ++ [c]) (Hext v c Hv Hc)).
  rewrite length_app in Hl. simpl in Hl.
  assert (length v + 1 <= length v); [|lia].
  apply Hl. exists post'. list_norm. reflexivity.
Qed.

(** X1.  Whenever [parse] sets [version] for a string, the value is a
    text [MAJOR.MINOR] or [MAJOR.MINOR.PATCH] of the string that cuts no
    number: the character before it and the character after it, if any,
    are not digits. *)
Theorem version_cuts_no_number (s : str) (d : OpenGLDescriptor) (v : str) :
  GLParser.parse (PyStr s) = Ok d ->
  version d = Some v ->
  version_text v /\
  exists pre post, s = pre ++ v ++ post /\
    (forall c pre', pre = pre' ++ [c] -> is_digit c = false) /\
    (forall c post', post = c :: post' -> is_digit c = false).
Proof.
  intros Hp Hv. rewrite (parse_str_version s d Hp) in Hv.
  apply opengl_version_some in Hv.
  assert (Hshape : version_text v) by (now destruct Hv as (_ & _ & _ & H & _)).
  split; [exact Hshape|].
  destruct (leftmost_match_not_followed _ s v version_text_snoc Hv)
    as (pre & post & -> & Hn & Hpost).
  exists pre, post. split; [reflexivity|]. split; [|exact Hpost].
  intros c pre' -> . destruct (is_digit c) eqn:Hc; [|reflexivity].
  exfalso. apply (Hn pre' [c] (c :: v) eq_refl); [discriminate| |].
  - now apply version_text_cons.
  - exists post. reflexivity.
Qed.

Lemma version_cuts_no_number_witness :
  version_text (lit "3.1.0") /\
  exists pre post,
    lit "OpenGL 3.1.0 - Build 26.20.100.7870" = pre ++ lit "3.1.0" ++ post /\
    (forall c pre', pre = pre' ++ [c] -> is_digit c = false) /\
    (forall c post', post = c :: post' -> is_digit c = false).
Proof.
  apply (version_cuts_no_number (lit "OpenGL 3.1.0 - Build 26.20.100.7870")
           (matcher Build (lit "OpenGL 3.1.0 - Build 26.20.100.7870")));
    reflexivity.
Defined.

(** X2.  Whenever a family matcher sets [driver_version], the value has
    the shape of the family's pattern (four numbers for compat and build,
    three for mesa and intel, three digits, a dot and a number for
    nvidia), it stands in the string right after the family's literal
    ('NVIDIA ', 'INTEL-', 'Build '; none for compat and mesa), and no
    digit follows it. *)
Theorem driver_version_family_shape (s : str) (f : family)
  (d : OpenGLDescriptor) (dv : str) :
  dispatch s = Some f ->
  GLParser.parse (PyStr s) = Ok d ->
  driver_version d = Some dv ->
  driver_number f dv /\
  exists pre post, s = pre ++ driver_prefix f ++ dv ++ post /\
    forall c post', post = c :: post' -> is_digit c = false.
Proof.
  intros Hd Hp Hdv. rewrite parse_dispatch, Hd in Hp. injection Hp as <-.
  split; [now apply (driver_version_shape f s dv)|].
  apply driver_version_some in Hdv.
  assert (Hext : forall w c, driver_pattern f w -> is_digit c = true ->
                             driver_pattern f (w ++ [c])).
  { intros w c (num & Hnum & ->) Hc. exists (num ++ [c]).
    split; [now apply driver_number_snoc | now rewrite app_assoc]. }
  destruct (leftmost_match_not_followed (driver_pattern f) s
              (driver_prefix f ++ dv) Hext Hdv)
    as (pre & post & -> & _ & Hpost).
  exists pre, post. split; [list_norm; reflexivity | exact Hpost].
Qed.

Lemma driver_version_family_shape_witness :
  driver_number Nvidia (lit "470.63") /\
  exists pre post,
    lit "4.5.0 NVIDIA 470.63" = pre ++ driver_prefix Nvidia ++ lit "470.63" ++ post /\
    forall c post', post = c :: post' -> is_digit c = false.
Proof.
  apply (driver_version_family_shape (lit "4.5.0 NVIDIA 470.63") Nvidia
           (matcher Nvidia (lit "4.5.0 NVIDIA 470.63"))); reflexivity.
Defined.

Lemma family_name_inj (f g : family) : family_name f = family_name g -> f = g.
Proof. destruct f, g; intros H; (reflexivity || discriminate H). Qed.

Lemma family_name_not_generic (f : family) : family_name f <> lit "generic".
Proof. destruct f; discriminate. Qed.

(** X3.  The [driver] of a descriptor tells how the input was dispatched:
    it is absent exactly for the numeric inputs, 'generic' exactly for
    the strings that contain none of the five keywords, and a family's
    name exactly for the strings whose first keyword, in the order of the
    tests, is that family's. *)
Theorem driver_tells_dispatch (x : pyval) (d : OpenGLDescriptor) :
  GLParser.parse x = Ok d ->
  (driver d = None <-> forall s, x <> PyStr s) /\
  (forall s, x = PyStr s ->
     (driver d = Some (lit "generic") <-> forall f, ~ substring (keyword f) s) /\
     (forall f, driver d = Some (family_name f) <->
        exists i, nth_error families i = Some f /\ substring (keyword f) s /\
          forall j g, j < i -> nth_error families j = Some g ->
                      ~ substring (keyword g) s)).
Proof.
  intros Hp. destruct x as [n|t|s].
  - apply parse_int_ok in Hp as ->. split.
    + split; [intros _ s; discriminate | reflexivity].
    + intros s [=].
  - injection Hp as <-. split.
    + split; [intros _ s; discriminate | reflexivity].
    + intros s [=].
  - rewrite parse_dispatch in Hp. split.
    + split.
      * intros Hnone. exfalso. destruct (dispatch s) as [f|].
        -- injection Hp as <-. now rewrite matcher_driver in Hnone.
        -- destruct (GLParser._opengl_version s) as [[|c v]|];
             try discriminate. now injection Hp as <-.
      * intros H. now destruct (H s).
    + intros s' [= <-]. destruct (dispatch s) as [f|] eqn:Ed.
      * injection Hp as <-. rewrite matcher_driver. split.
        -- split.
           ++ intros [= H]. now apply family_name_not_generic in H.
           ++ intros H. apply dispatch_none in H. congruence.
        -- intros g. rewrite <- dispatch_some, Ed. split.
           ++ intros [= H]. now apply family_name_inj in H as ->.
           ++ now intros [= ->].
      * destruct (GLParser._opengl_version s) as [[|c v]|]; try discriminate.
        injection Hp as <-. cbn [driver]. split.
        -- split; [intros _; now apply dispatch_none | reflexivity].
        -- intros g. rewrite <- dispatch_some, Ed. split.
           ++ intros [= H]. symmetry in H. now apply family_name_not_generic in H.
           ++ discriminate.
Qed.

Lemma driver_tells_dispatch_witness :
  (driver (matcher Intel (lit "4.1 INTEL-14.7.7 Build 3")) = None <->
   forall s, PyStr (lit "4.1 INTEL-14.7.7 Build 3") <> PyStr s) /\
  (forall s, PyStr (lit "4.1 INTEL-14.7.7 Build 3") = PyStr s ->
     (driver (matcher Intel (lit "4.1 INTEL-14.7.7 Build 3")) =
        Some (lit "generic") <-> forall f, ~ substring (keyword f) s) /\
     (forall f, driver (matcher Intel (lit "4.1 INTEL-14.7.7 Build 3")) =
                Some (family_name f) <->
        exists i, nth_error families i = Some f /\ substring (keyword f) s /\
          forall j g, j < i -> nth_error families j = Some g ->
                      ~ substring (keyword g) s)).
Proof.
  apply (driver_tells_dispatch (PyStr (lit "4.1 INTEL-14.7.7 Build 3"))).
  reflexivity.
Defined.

(** * Further properties of the generator *)

Lemma pulls_accepted (xs : list pyval) (ds : list OpenGLDescriptor) :
  Forall2 (fun y d => GLParser.parse y = Ok d) xs ds ->
  forall rest, pulls (length xs) (Suspended (xs ++ rest)) =
               (map Ok ds, Suspended rest).
Proof.
  intros H rest. induction H as [|y d ys ds' Hy Hys IH]; [reflexivity|].
  cbn [length pulls app next]. rewrite Hy, IH. reflexivity.
Qed.

Lemma consume_accepted (xs : list pyval) (ds : list OpenGLDescriptor) :
  Forall2 (fun y d => GLParser.parse y = Ok d) xs ds ->
  forall fuel, length xs < fuel -> consume fuel (Suspended xs) = Some (Ok ds).
Proof.
  intros H. induction H as [|y d ys ds' Hy Hys IH]; intros fuel Hf.
  - destruct fuel; [simpl in Hf; lia | reflexivity].
  - destruct fuel as [|fuel]; [simpl in Hf; lia|].
    cbn [consume next]. rewrite Hy, IH by (simpl in Hf; lia). reflexivity.
Qed.

Lemma parse_never_stops (x : pyval) : GLParser.parse x <> Raise StopIteration.
Proof.
  destruct x as [n|t|s]; try discriminate.
  - destruct (parse_int_cases n) as [[_ ->]|[_ ->]]; discriminate.
  - rewrite parse_dispatch. destruct (dispatch s); [discriminate|].
    destruct (GLParser._opengl_version s) as [[|c v]|]; discriminate.
Qed.

Lemma consume_rejected (before after : list pyval) (x : pyval)
  (ds : list OpenGLDescriptor) (e : exn) :
  Forall2 (fun y d => GLParser.parse y = Ok d) before ds ->
  GLParser.parse x = Raise e ->
  forall fuel, length before < fuel ->
  consume fuel (Suspended (before ++ x :: after)) = Some (Raise e).
Proof.
  intros H He. induction H as [|y d ys ds' Hy Hys IH]; intros fuel Hf.
  - destruct fuel as [|fuel]; [simpl in Hf; lia|].
    cbn [consume next app]. rewrite He.
    destruct e; try reflexivity. now apply parse_never_stops in He.
  - destruct fuel as [|fuel]; [simpl in Hf; lia|].
    cbn [consume next app]. rewrite Hy, IH by (simpl in Hf; lia). reflexivity.
Qed.

(** X4.  [list(parse_gl_versions(xs))] returns the descriptors of all the
    inputs, in order, when [parse] accepts every one of them; otherwise it
    raises the exception of the first input [parse] rejects, and the
    descriptors of the inputs before it are lost. *)
Theorem list_of_generator (xs : list pyval) (fuel : nat) :
  length xs < fuel ->
  (forall ds, Forall2 (fun y d => GLParser.parse y = Ok d) xs ds ->
     consume fuel (parse_gl_versions xs) = Some (Ok ds)) /\
  (forall before x after ds e,
     xs = before ++ x :: after ->
     Forall2 (fun y d => GLParser.parse y = Ok d) before ds ->
     GLParser.parse x = Raise e ->
     consume fuel (parse_gl_versions xs) = Some (Raise e)).
Proof.
  intros Hf. unfold parse_gl_versions. split.
  - intros ds H. now apply consume_accepted.
  - intros before x after ds e -> H He.
    apply (consume_rejected before after x ds e H He).
    rewrite length_app in Hf. simpl in Hf. lia.
Qed.

Lemma list_of_generator_witness :
  consume 3 (parse_gl_versions [PyInt 3; PyStr (lit "4.1 INTEL-14.7.7")]) =
    Some (Ok [mkOpenGLDescriptor (Some (lit "3.0.0")) None None;
              mkOpenGLDescriptor (Some (lit "4.1")) (Some (lit "intel"))
                                 (Some (lit "14.7.7"))]) /\
  consume 3 (parse_gl_versions [PyInt 3; PyStr (lit "unknown")]) =
    Some (Raise (NotImplementedError (lit "Unimplemented for unknown"))).
Proof.
  split.
  - apply (list_of_generator [PyInt 3; PyStr (lit "4.1 INTEL-14.7.7")] 3).
    + simpl. lia.
    + repeat constructor.
  - apply (proj2 (list_of_generator [PyInt 3; PyStr (lit "unknown")] 3
                    ltac:(simpl; lia))
             [PyInt 3] (PyStr (lit "unknown")) []
             [mkOpenGLDescriptor (Some (lit "3.0.0")) None None]).
    + reflexivity.
    + repeat constructor.
    + reflexivity.
Defined.

Lemma skipn_prefix_list {A : Type} (l1 l2 : list A) :
  skipn (length l1) (l1 ++ l2) = l2.
Proof.
  rewrite skipn_app, skipn_all, Nat.sub_diag. reflexivity.
Qed.

(** X5.  Taking [n] descriptors with [next] and then calling [list] on
    the same generator gives the first [n] descriptors and then the
    remaining ones: no input is parsed twice and none is skipped. *)
Theorem next_then_list (xs : list pyval) (ds : list OpenGLDescriptor)
  (n fuel : nat) :
  Forall2 (fun y d => GLParser.parse y = Ok d) xs ds ->
  n <= length xs ->
  length xs - n < fuel ->
  fst (pulls n (parse_gl_versions xs)) = map Ok (firstn n ds) /\
  consume fuel (snd (pulls n (parse_gl_versions xs))) = Some (Ok (skipn n ds)).
Proof.
  intros H Hn Hf. unfold parse_gl_versions.
  assert (Hlen : length xs = length ds) by (now apply Forall2_length in H).
  rewrite <- (firstn_skipn n xs) in H.
  apply Forall2_app_inv_l in H as (ds1 & ds2 & H1 & H2 & ->).
  assert (L1 : length (firstn n xs) = n) by (rewrite length_firstn; lia).
  assert (L2 : length ds1 = n) by (apply Forall2_length in H1; lia).
  assert (E1 : firstn n (ds1 ++ ds2) = ds1).
  { rewrite <- L2, firstn_app, firstn_all, Nat.sub_diag. simpl. apply app_nil_r. }
  assert (E2 : skipn n (ds1 ++ ds2) = ds2).
  { rewrite <- L2. apply skipn_prefix_list. }
  assert (Ep : pulls n (Suspended xs) = (map Ok ds1, Suspended (skipn n xs))).
  { pose proof (pulls_accepted _ _ H1 (skipn n xs)) as Hp.
    now rewrite L1, firstn_skipn in Hp. }
  rewrite Ep, E1, E2. cbn [fst snd]. split; [reflexivity|].
  apply consume_accepted; [exact H2|]. rewrite length_skipn. exact Hf.
Qed.

Lemma next_then_list_witness :
  fst (pulls 1 (parse_gl_versions [PyInt 3; PyStr (lit "4.1 INTEL-14.7.7")])) =
    [Ok (mkOpenGLDescriptor (Some (lit "3.0.0")) None None)] /\
  consume 2 (snd (pulls 1 (parse_gl_versions
                             [PyInt 3; PyStr (lit "4.1 INTEL-14.7.7")]))) =
    Some (Ok [mkOpenGLDescriptor (Some (lit "4.1")) (Some (lit "intel"))
                                 (Some (lit "14.7.7"))]).
Proof.
  apply (next_then_list [PyInt 3; PyStr (lit "4.1 INTEL-14.7.7")]
           [mkOpenGLDescriptor (Some (lit "3.0.0")) None None;
            mkOpenGLDescriptor (Some (lit "4.1")) (Some (lit "intel"))
                               (Some (lit "14.7.7"))] 1 2).
  - repeat constructor.
  - simpl. lia.
  - simpl. lia.
Defined.

(** * Further properties of [parse_runtime] *)

Lemma tokens_of_each (s : str) (toks : list str) :
  tokens_of s toks ->
  Forall (fun t => t <> [] /\ no_space t /\ substring t s) toks.
Proof.
  intros H. induction H as [w Hw | w t s toks Hw Ht Hn He Hr IH];
    constructor.
  - split; [exact Ht|]. split; [exact Hn|]. now exists w, s.
  - apply (Forall_impl _ (P := fun t0 => t0 <> [] /\ no_space t0 /\ substring t0 s));
      [|exact IH].
    intros t0 (H1 & H2 & (pre & post & ->)). split; [exact H1|].
    split; [exact H2|]. exists (w ++ t ++ pre), post. list_norm. reflexivity.
Qed.

Lemma split_token (s tok : str) (i : nat) :
  nth_error (split s) i = Some tok ->
  tok <> [] /\ no_space tok /\ substring tok s.
Proof.
  intros H. apply nth_error_In in H.
  pose proof (tokens_of_each s (split s) (split_tokens s)) as Hall.
  rewrite Forall_forall in Hall. now apply Hall.
Qed.

(** X6.  When [parse_runtime] returns for a string, it returns a
    [Runtime], never [None]; the provider is 'mono' if the string
    contains 'Mono' and '.net' otherwise, in which case the string
    contains '.NET'; and the version is a text of the string that is not
    empty and has no whitespace in it. *)
Theorem runtime_version_is_token (s : str) (r : option Runtime) :
  parse_runtime (Some s) = Ok r ->
  exists rt, r = Some rt /\
    (provider rt = lit "mono" /\ substring (lit "Mono") s \/
     provider rt = lit ".net" /\ substring (lit ".NET") s /\
       ~ substring (lit "Mono") s) /\
    runtime_version rt <> [] /\ no_space (runtime_version rt) /\
    substring (runtime_version rt) s.
Proof.
  unfold parse_runtime, parse_mono_runtime, parse_dotnet_runtime, index, rbind.
  destruct (contains (lit "Mono") s) eqn:Em.
  - destruct (nth_error (split s) 1) as [tok|] eqn:Et; [|discriminate].
    intros [= <-]. eexists. split; [reflexivity|]. cbn [provider runtime_version].
    split; [left; split; [reflexivity | now apply contains_spec]|].
    now apply (split_token s tok 1).
  - destruct (contains (lit ".NET") s) eqn:En; [|discriminate].
    destruct (nth_error (split s) 2) as [tok|] eqn:Et; [|discriminate].
    intros [= <-]. eexists. split; [reflexivity|]. cbn [provider runtime_version].
    split.
    + right. split; [reflexivity|].
      split; [now apply contains_spec | now apply contains_false].
    + now apply (split_token s tok 2).
Qed.

Lemma runtime_version_is_token_witness :
  exists rt,
    Some (mkRuntime (lit ".net") (lit "4.0.30319")) = Some rt /\
    (provider rt = lit "mono" /\
       substring (lit "Mono") (lit ".NET CLR 4.0.30319") \/
     provider rt = lit ".net" /\
       substring (lit ".NET") (lit ".NET CLR 4.0.30319") /\
       ~ substring (lit "Mono") (lit ".NET CLR 4.0.30319")) /\
    runtime_version rt <> [] /\ no_space (runtime_version rt) /\
    substring (runtime_version rt) (lit ".NET CLR 4.0.30319").
Proof.
  apply (runtime_version_is_token (lit ".NET CLR 4.0.30319")). reflexivity.
Defined.

Lemma split_leading (w s : str) :
  all_space w -> split_from [] (w ++ s) = split_from [] s.
Proof.
  unfold all_space. induction w as [|a w IH]; cbn [app forallb split_from];
    [reflexivity|].
  intros H. apply andb_prop in H as [-> H]. now apply IH.
Qed.

Lemma split_only_space (w cur : str) :
  all_space w -> split_from cur w = split_from cur [].
Proof.
  unfold all_space. revert cur.
  induction w as [|a w IH]; intros cur; cbn [forallb]; [reflexivity|].
  intros H. apply andb_prop in H as [Ha H]. cbn [split_from]. rewrite Ha.
  destruct cur; rewrite (IH [] H); reflexivity.
Qed.

Lemma split_trailing (s w : str) :
  all_space w -> forall cur, split_from cur (s ++ w) = split_from cur s.
Proof.
  intros Hw. induction s as [|c s IH]; intros cur; cbn [app].
  - now apply split_only_space.
  - cbn [split_from]. destruct (is_space c); [|apply IH].
    destruct cur; now rewrite IH.
Qed.

Lemma substring_leading (p w s : str) :
  p <> [] -> no_space p -> all_space w ->
  substring p (w ++ s) -> substring p s.
Proof.
  intros Hne Hp. unfold all_space.
  induction w as [|a w IH]; cbn [app forallb]; [intros _ H; exact H|].
  intros Hw. apply andb_prop in Hw as [Ha Hw].
  intros ([|b pre] & post & E); cbn [app] in E.
  - exfalso. destruct p as [|c p]; [congruence|].
    injection E as <- _. unfold no_space in Hp. simpl in Hp. now rewrite Ha in Hp.
  - injection E as _ E. apply (IH Hw). now exists pre, post.
Qed.

Lemma substring_trailing (p s w : str) :
  p <> [] -> no_space p -> all_space w ->
  substring p (s ++ w) -> substring p s.
Proof.
  intros Hne Hp. unfold all_space.
  induction w as [|a w IH] using rev_ind.
  - rewrite app_nil_r. intros _ H; exact H.
  - rewrite forallb_app. intros Hw. apply andb_prop in Hw as [Hw Ha].
    simpl in Ha. apply andb_prop in Ha as [Ha _].
    intros (pre & post & E).
    destruct post as [|b post] using rev_ind.
    + exfalso. destruct (exists_last Hne) as (p' & c & ->).
      rewrite app_nil_r, !app_assoc in E. apply app_inj_tail in E as [_ <-].
      unfold no_space in Hp. rewrite forallb_app in Hp.
      apply andb_prop in Hp as [_ Hp]. simpl in Hp. now rewrite Ha in Hp.
    + clear IHpost. rewrite !app_assoc in E. apply app_inj_tail in E as [E _].
      apply (IH Hw). exists pre, post. rewrite E. list_norm. reflexivity.
Qed.

Lemma contains_strip (p w1 s w2 : str) :
  p <> [] -> no_space p -> all_space w1 -> all_space w2 ->
  contains p (w1 ++ s ++ w2) = contains p s.
Proof.
  intros Hne Hp H1 H2.
  destruct (contains p s) eqn:E.
  - apply contains_spec. apply contains_spec in E as (pre & post & ->).
    exists (w1 ++ pre), (post ++ w2). list_norm. reflexivity.
  - apply contains_false. apply contains_false in E. intros H. apply E.
    apply (substring_trailing p s w2 Hne Hp H2).
    now apply (substring_leading p w1 (s ++ w2) Hne Hp H1).
Qed.

(** X7.  Whitespace before and after a runtime string changes nothing
    but the text of the invalid-runtime message: the same [Runtime] is
    returned, the same [IndexError] raised, and a string with neither
    marker is still rejected, with the padded string in the message. *)
Theorem parse_runtime_ignores_padding (w1 s w2 : str) :
  all_space w1 -> all_space w2 ->
  parse_runtime (Some (w1 ++ s ++ w2)) =
  match parse_runtime (Some s) with
  | Raise (ValueError _) =>
      Raise (ValueError (lit "Invalid runtime value: " ++ w1 ++ s ++ w2))
  | outcome => outcome
  end.
Proof.
  intros H1 H2.
  unfold parse_runtime, parse_mono_runtime, parse_dotnet_runtime, index, rbind,
    split.
  rewrite !(contains_strip _ w1 s w2) by (assumption || discriminate || reflexivity).
  rewrite (split_leading w1 (s ++ w2) H1), (split_trailing s w2 H2).
  destruct (contains (lit "Mono") s).
  - destruct (nth_error (split_from [] s) 1); reflexivity.
  - destruct (contains (lit ".NET") s); [|reflexivity].
    destruct (nth_error (split_from [] s) 2); reflexivity.
Qed.

Lemma parse_runtime_ignores_padding_witness :
  parse_runtime (Some (lit "  " ++ lit "Mono 6.12.0.122 (tarball)" ++ lit " ")) =
  Ok (Some (mkRuntime (lit "mono") (lit "6.12.0.122"))).
Proof.
  apply (parse_runtime_ignores_padding (lit "  ")
           (lit "Mono 6.12.0.122 (tarball)") (lit " ")); reflexivity.
Defined.

(** * Properties of dicts *)

Section Dict.

Context {K V : Type} `{EqDec K}.

Lemma dict_get_set (h k : K) (v : V) (d : dict K V) :
  dict_get h (dict_set k v d) =
  if eq_dec h k then Some v else dict_get h d.
Proof.
  induction d as [|[k' v'] d IH]; cbn [dict_set dict_get].
  - destruct (eq_dec h k); reflexivity.
  - destruct (eq_dec k k') as [<-|Hk]; cbn [dict_get].
    + destruct (eq_dec h k); reflexivity.
    + destruct (eq_dec h k') as [->|Hh].
      * destruct (eq_dec k' k); [congruence | reflexivity].
      * exact IH.
Qed.

Lemma dict_get_app (h : K) (d1 d2 : dict K V) :
  dict_get h (d1 ++ d2) =
  match dict_get h d1 with
  | Some v => Some v
  | None => dict_get h d2
  end.
Proof.
  induction d1 as [|[k v] d1 IH]; cbn [app dict_get]; [reflexivity|].
  destruct (eq_dec h k); [reflexivity | exact IH].
Qed.

Lemma dict_get_none (h : K) (d : dict K V) :
  dict_get h d = None <-> ~ In h (dict_keys d).
Proof.
  induction d as [|[k v] d IH]; cbn [dict_get dict_keys map fst In].
  - tauto.
  - destruct (eq_dec h k) as [->|Hk].
    + split; [discriminate | tauto].
    + rewrite IH. unfold dict_keys. split; [intros H1 [H2|H2]; congruence | tauto].
Qed.

Lemma dict_keys_set (h k : K) (v : V) (d : dict K V) :
  In h (dict_keys (dict_set k v d)) <-> h = k \/ In h (dict_keys d).
Proof.
  induction d as [|[k' v'] d IH]; cbn [dict_set dict_keys map fst In].
  - intuition congruence.
  - destruct (eq_dec k k') as [<-|Hk]; cbn [map fst In].
    + intuition congruence.
    + unfold dict_keys in IH. rewrite IH. intuition congruence.
Qed.

Lemma dict_keys_set_NoDup (k : K) (v : V) (d : dict K V) :
  NoDup (dict_keys d) -> NoDup (dict_keys (dict_set k v d)).
Proof.
  induction d as [|[k' v'] d IH]; cbn [dict_set dict_keys map fst]; intros Hd.
  - constructor; [intros [] | constructor].
  - inversion Hd as [|? ? Hin Hd']; subst.
    destruct (eq_dec k k') as [<-|Hk]; cbn [map fst].
    + now constructor.
    + constructor; [|now apply IH].
      intros Hin'. apply (dict_keys_set k' k v d) in Hin' as [E|Hin'];
        [congruence | exact (Hin Hin')].
Qed.

End Dict.

(** * Properties of the map-name cache *)

(** The dict the loop builds from the answers [items] of the network. *)
Lemma build_cached_loop_items {E : Type} (fetch : fetcher E) :
  forall (items : list (str * option str)) (acc : dict str (option str))
         (w : world),
  (forall i h nm, nth_error items i = Some (h, nm) ->
                  fetch (calls w + i) h = Return nm) ->
  build_cached_loop fetch (map fst items) acc w =
  (Return (fold_left (fun a it => dict_set (fst it) (snd it) a) items acc),
   World (cache w) (calls w + length items)).
Proof.
  induction items as [|[h nm] items IH]; intros acc w Hf;
    cbn [map fst build_cached_loop fold_left length snd].
  - rewrite Nat.add_0_r. now destruct w.
  - pose proof (Hf 0 h nm eq_refl) as H0. rewrite Nat.add_0_r in H0.
    rewrite H0, IH.
    + cbn [cache calls]. do 2 f_equal. lia.
    + intros i h' nm' Hi. cbn [calls].
      replace (S (calls w) + i) with (calls w + S i) by lia. now apply Hf.
Qed.

Lemma build_cached_loop_raises {E : Type} (fetch : fetcher E) :
  forall (items : list (str * option str)) (h : str) (rest : list str) (e : E)
         (acc : dict str (option str)) (w : world),
  (forall i h' nm, nth_error items i = Some (h', nm) ->
                   fetch (calls w + i) h' = Return nm) ->
  fetch (calls w + length items) h = Throw e ->
  build_cached_loop fetch (map fst items ++ h :: rest) acc w =
  (Throw e, World (cache w) (calls w + length items + 1)).
Proof.
  induction items as [|[h0 nm] items IH]; intros h rest e acc w Hf He;
    cbn [map fst build_cached_loop app length].
  - rewrite Nat.add_0_r in He. rewrite He. do 2 f_equal. lia.
  - pose proof (Hf 0 h0 nm eq_refl) as H0. rewrite Nat.add_0_r in H0.
    rewrite H0, (IH h rest e).
    + cbn [cache calls]. do 2 f_equal. lia.
    + intros i h' nm' Hi. cbn [calls].
      replace (S (calls w) + i) with (calls w + S i) by lia. now apply Hf.
    + cbn [calls]. cbn [length] in He.
      replace (S (calls w) + length items) with (calls w + S (length items))
        by lia. exact He.
Qed.

Lemma fold_set_get (items : list (str * option str)) :
  forall (acc : dict str (option str)) (h : str),
  dict_get h (fold_left (fun a it => dict_set (fst it) (snd it) a) items acc) =
  match dict_get h (rev items) with
  | Some v => Some v
  | None => dict_get h acc
  end.
Proof.
  induction items as [|[k v] items IH]; intros acc h; cbn [fold_left rev fst snd].
  - reflexivity.
  - rewrite IH, dict_get_app, dict_get_set. cbn [dict_get].
    destruct (dict_get h (rev items)); [reflexivity|].
    destruct (eq_dec h k); reflexivity.
Qed.

Lemma fold_set_keys (items : list (str * option str)) :
  forall (acc : dict str (option str)),
  NoDup (dict_keys acc) ->
  NoDup (dict_keys
           (fold_left (fun a it => dict_set (fst it) (snd it) a) items acc)) /\
  forall h,
    In h (dict_keys
            (fold_left (fun a it => dict_set (fst it) (snd it) a) items acc)) <->
    In h (map fst items) \/ In h (dict_keys acc).
Proof.
  induction items as [|[k v] items IH]; intros acc Hacc;
    cbn [fold_left map fst snd In].
  - split; [exact Hacc | tauto].
  - destruct (IH (dict_set k v acc) (dict_keys_set_NoDup k v acc Hacc))
      as [Hnd Hin].
    split; [exact Hnd|]. intros h. rewrite Hin, dict_keys_set.
    intuition congruence.
Qed.

(** X8.  When every call of [fetch_map_name] returns, the dict of
    [build_cached_results] has each hash once as a key, a hash given
    several times is fetched each time and keeps the answer of its last
    fetch, and as many calls are made as hashes are given. *)
Theorem build_cached_results_last_wins {E : Type} (fetch : fetcher E)
  (items : list (str * option str)) (w : world) :
  (forall i h nm, nth_error items i = Some (h, nm) ->
                  fetch (calls w + i) h = Return nm) ->
  exists d,
    build_cached_results fetch (map fst items) w =
      (Return d, World (cache w) (calls w + length items)) /\
    NoDup (dict_keys d) /\
    (forall h, In h (dict_keys d) <-> In h (map fst items)) /\
    (forall l1 h nm l2, items = l1 ++ (h, nm) :: l2 ->
       ~ In h (map fst l2) -> dict_get h d = Some nm).
Proof.
  intros Hf. eexists. split; [apply (build_cached_loop_items fetch items [] w Hf)|].
  destruct (fold_set_keys items [] (NoDup_nil _)) as [Hnd Hin].
  split; [exact Hnd|]. split.
  - intros h. rewrite Hin. cbn [dict_keys map In]. tauto.
  - intros l1 h nm l2 -> Hl2. rewrite fold_set_get.
    rewrite rev_app_distr. cbn [rev]. rewrite <- app_assoc, dict_get_app.
    assert (Hn : dict_get h (rev l2) = None).
    { apply dict_get_none. unfold dict_keys. rewrite map_rev, <- in_rev.
      exact Hl2. }
    rewrite Hn. cbn [app dict_get]. destruct (eq_dec h h); [reflexivity | congruence].
Qed.

Lemma build_cached_results_last_wins_witness :
  exists d,
    build_cached_results (E := unit)
      (fun i _ => Return (if Nat.eqb i 0 then None else Some (lit "Oasis")))
      [lit "a1"; lit "a1"] (World None 0) =
      (Return d, World None 2) /\
    NoDup (dict_keys d) /\
    (forall h, In h (dict_keys d) <-> In h [lit "a1"; lit "a1"]) /\
    (forall l1 h nm l2,
       [(lit "a1", None); (lit "a1", Some (lit "Oasis"))] = l1 ++ (h, nm) :: l2 ->
       ~ In h (map fst l2) -> dict_get h d = Some nm).
Proof.
  apply (build_cached_results_last_wins (E := unit)
           (fun i _ => Return (if Nat.eqb i 0 then None else Some (lit "Oasis")))
           [(lit "a1", None); (lit "a1", Some (lit "Oasis"))] (World None 0)).
  intros [|[|i]] h nm Hi; cbn in Hi.
  - now injection Hi as <- <-.
  - now injection Hi as <- <-.
  - destruct i; discriminate Hi.
Defined.

(** X9.  When a call of [fetch_map_name] raises, [build_cached_results]
    raises the same exception at once: no dict is returned, no hash after
    the failing one is fetched, and the cache file is not touched. *)
Theorem build_cached_results_raises {E : Type} (fetch : fetcher E)
  (items : list (str * option str)) (h : str) (rest : list str) (e : E)
  (w : world) :
  (forall i h' nm, nth_error items i = Some (h', nm) ->
                   fetch (calls w + i) h' = Return nm) ->
  fetch (calls w + length items) h = Throw e ->
  build_cached_results fetch (map fst items ++ h :: rest) w =
  (Throw e, World (cache w) (calls w + length items + 1)).
Proof.
  intros Hf He. now apply build_cached_loop_raises.
Qed.

Lemma build_cached_results_raises_witness :
  build_cached_results
    (fun i _ => if Nat.eqb i 1 then Throw tt else Return (Some (lit "Oasis")))
    [lit "a1"; lit "b2"; lit "c3"] (World None 0) =
  (Throw tt, World None 2).
Proof.
  apply (build_cached_results_raises
           (fun i _ => if Nat.eqb i 1 then Throw tt else Return (Some (lit "Oasis")))
           [(lit "a1", Some (lit "Oasis"))] (lit "b2") [lit "c3"] tt
           (World None 0)).
  - intros [|i] h nm Hi; cbn in Hi; [now injection Hi as <- <- | now destruct i].
  - reflexivity.
Defined.

(** X10.  A mapping that [build_map_hash_to_name_mapping] returns is what
    the cache file holds afterwards, and every later call without [force]
    returns that same mapping, whatever hashes it is asked for, without a
    single call of [fetch_map_name]. *)
Theorem returned_mapping_is_cached {E : Type} (fetch : fetcher E)
  (hashes : list str) (force : bool) (w w1 : world)
  (d : dict str (option str)) :
  build_map_hash_to_name_mapping fetch hashes force w = (Return d, w1) ->
  cache w1 = Some (JsonOf d) /\
  forall (fetch' : fetcher E) (hashes' : list str),
    build_map_hash_to_name_mapping fetch' hashes' false w1 = (Return d, w1).
Proof.
  unfold build_map_hash_to_name_mapping. intros H.
  assert (Hc : cache w1 = Some (JsonOf d)).
  { destruct (negb (isfile w) || force).
    - destruct (build_cached_results fetch hashes w) as [[results|e] w'];
        [|discriminate].
      injection H as <- <-. reflexivity.
    - unfold load_cache in H. injection H as H <-.
      destruct (cache w) as [[d0|]|]; try discriminate. now injection H as <-. }
  split; [exact Hc|]. intros fetch' hashes'.
  unfold isfile. rewrite Hc. cbn [negb orb]. unfold load_cache.
  rewrite Hc. reflexivity.
Qed.

Lemma returned_mapping_is_cached_witness :
  cache (World (Some (JsonOf [(lit "a1", Some (lit "Oasis"))])) 1) =
    Some (JsonOf [(lit "a1", Some (lit "Oasis"))]) /\
  forall (fetch' : fetcher unit) (hashes' : list str),
    build_map_hash_to_name_mapping fetch' hashes' false
      (World (Some (JsonOf [(lit "a1", Some (lit "Oasis"))])) 1) =
    (Return [(lit "a1", Some (lit "Oasis"))],
     World (Some (JsonOf [(lit "a1", Some (lit "Oasis"))])) 1).
Proof.
  apply (returned_mapping_is_cached (E := unit)
           (fun _ _ => Return (Some (lit "Oasis"))) [lit "a1"] true
           (World (Some NotJson) 0)).
  reflexivity.
Defined.

(** X11.  When the first calls of [fetch_map_name] return and the next
    one raises, [build_map_hash_to_name_mapping], when there is no cache
    file or under [force], raises that same exception after exactly these
    calls and leaves the cache file as it was: a cache is only ever
    replaced by a complete mapping.  With a cache file and without
    [force] no call is made and the file is read. *)
Theorem failed_fetch_keeps_cache {E : Type} (fetch : fetcher E)
  (items : list (str * option str)) (h : str) (rest : list str) (e : E)
  (force : bool) (w : world) :
  (forall i h' nm, nth_error items i = Some (h', nm) ->
                   fetch (calls w + i) h' = Return nm) ->
  fetch (calls w + length items) h = Throw e ->
  build_map_hash_to_name_mapping fetch (map fst items ++ h :: rest) force w =
  if negb (isfile w) || force
  then (Throw (FetchRaised e), World (cache w) (calls w + length items + 1))
  else (load_cache w, w).
Proof.
  intros Hf He. unfold build_map_hash_to_name_mapping, build_cached_results.
  destruct (negb (isfile w) || force); [|reflexivity].
  now rewrite (build_cached_loop_raises fetch items h rest e [] w Hf He).
Qed.

Lemma failed_fetch_keeps_cache_witness :
  build_map_hash_to_name_mapping
    (fun i _ => if Nat.eqb i 1 then Throw tt else Return (Some (lit "Oasis")))
    [lit "a1"; lit "b2"; lit "c3"] true
    (World (Some (JsonOf [(lit "a1", None)])) 0) =
  (Throw (FetchRaised tt), World (Some (JsonOf [(lit "a1", None)])) 2).
Proof.
  apply (failed_fetch_keeps_cache
           (fun i _ => if Nat.eqb i 1 then Throw tt else Return (Some (lit "Oasis")))
           [(lit "a1", Some (lit "Oasis"))] (lit "b2") [lit "c3"] tt true
           (World (Some (JsonOf [(lit "a1", None)])) 0)).
  - intros [|i] h nm Hi; cbn in Hi; [now injection Hi as <- <- | now destruct i].
  - reflexivity.
Defined.

(** * Properties of the most played maps *)

Lemma max_values_step_NoDup (mv : dict Z (Z * str)) (item : count_item) :
  NoDup (dict_keys mv) -> NoDup (dict_keys (max_values_step mv item)).
Proof.
  intros Hnd. destruct item as [[nm t] c]. cbn [max_values_step].
  destruct (dict_get t mv) as [[ec en]|].
  - destruct (c >? ec)%Z; [now apply dict_keys_set_NoDup | exact Hnd].
  - now apply dict_keys_set_NoDup.
Qed.

Lemma max_values_snoc (counts : list count_item) (item : count_item) :
  max_values_of (counts ++ [item]) =
  max_values_step (max_values_of counts) item.
Proof.
  unfold max_values_of. now rewrite fold_left_app.
Qed.

Lemma first_largest_snoc_other (counts : list count_item) (t c : Z) (nm : str)
  (nm0 : str) (t0 c0 : Z) :
  first_largest counts t c nm -> (t0 <> t \/ (c0 <= c)%Z) ->
  first_largest (counts ++ [((nm0, t0), c0)]) t c nm.
Proof.
  intros (l1 & l2 & -> & H1 & H2) Hor.
  exists l1, (l2 ++ [((nm0, t0), c0)]). split; [list_norm; reflexivity|].
  split; [exact H1|]. intros nm' c' Hin. apply in_app_or in Hin as [Hin|Hin].
  - now apply (H2 nm').
  - destruct Hin as [Hin|[]]. injection Hin as _ Ht Hc. subst.
    destruct Hor as [Hor|Hor]; [congruence | exact Hor].
Qed.

Lemma first_largest_bound (counts : list count_item) (t c : Z) (nm : str) :
  first_largest counts t c nm ->
  forall nm' c', In ((nm', t), c') counts -> (c' <= c)%Z.
Proof.
  intros (l1 & l2 & -> & H1 & H2) nm' c' Hin.
  apply in_app_or in Hin as [Hin|[Hin|Hin]].
  - specialize (H1 nm' c' Hin). lia.
  - injection Hin as _ <-. lia.
  - now apply (H2 nm').
Qed.

(** What the loop has found after the items [counts]. *)
Lemma max_values_inv (counts : list count_item) :
  NoDup (dict_keys (max_values_of counts)) /\
  forall t,
    match dict_get t (max_values_of counts) with
    | Some (c, nm) => first_largest counts t c nm
    | None => forall nm c, ~ In ((nm, t), c) counts
    end.
Proof.
  induction counts as [|[[nm0 t0] c0] counts [IHn IH]] using rev_ind.
  - split; [constructor|]. intros t nm c [].
  - rewrite max_values_snoc. split; [now apply max_values_step_NoDup|].
    intros t. cbn [max_values_step]. pose proof (IH t) as Ht.
    pose proof (IH t0) as Ht0.
    destruct (dict_get t0 (max_values_of counts)) as [[ec en]|] eqn:E0.
    + destruct (c0 >? ec)%Z eqn:Egt.
      * rewrite dict_get_set. destruct (eq_dec t t0) as [->|Hne].
        -- exists counts, []. split; [reflexivity|]. split; [|intros ? ? []].
           intros nm' c' Hin.
           pose proof (first_largest_bound _ _ _ _ Ht0 nm' c' Hin). lia.
        -- destruct (dict_get t (max_values_of counts)) as [[c nm]|].
           ++ apply first_largest_snoc_other; [exact Ht | left; congruence].
           ++ intros nm c Hin. apply in_app_or in Hin as [Hin|[Hin|[]]];
                [now apply (Ht nm c) | congruence].
      * destruct (Z.eq_dec t t0) as [->|Hne].
        -- rewrite E0. apply first_largest_snoc_other; [exact Ht0 | right; lia].
        -- destruct (dict_get t (max_values_of counts)) as [[c nm]|].
           ++ apply first_largest_snoc_other; [exact Ht | left; congruence].
           ++ intros nm c Hin. apply in_app_or in Hin as [Hin|[Hin|[]]];
                [now apply (Ht nm c) | congruence].
    + rewrite dict_get_set. destruct (eq_dec t t0) as [->|Hne].
      * exists counts, []. split; [reflexivity|]. split; [|intros ? ? []].
        intros nm' c' Hin. now destruct (Ht0 nm' c').
      * destruct (dict_get t (max_values_of counts)) as [[c nm]|].
        -- apply first_largest_snoc_other; [exact Ht | left; congruence].
        -- intros nm c Hin. apply in_app_or in Hin as [Hin|[Hin|[]]];
             [now apply (Ht nm c) | congruence].
Qed.

Lemma insert_sorted_perm (x : Z) (l : list Z) :
  Permutation (insert_sorted x l) (x :: l).
Proof.
  induction l as [|y l IH]; cbn [insert_sorted]; [reflexivity|].
  destruct (x <=? y)%Z; [reflexivity|].
  rewrite IH. apply perm_swap.
Qed.

Lemma py_sorted_perm (l : list Z) : Permutation (py_sorted l) l.
Proof.
  induction l as [|x l IH]; cbn [py_sorted fold_right]; [reflexivity|].
  fold (py_sorted l). rewrite insert_sorted_perm. now constructor.
Qed.

Lemma insert_sorted_sorted (x : Z) (l : list Z) :
  StronglySorted Z.le l -> StronglySorted Z.le (insert_sorted x l).
Proof.
  induction l as [|y l IH]; cbn [insert_sorted]; intros Hs.
  - constructor; constructor.
  - destruct (x <=? y)%Z eqn:E.
    + constructor; [exact Hs|]. apply Z.leb_le in E.
      inversion Hs as [|? ? Hs' Hall]; subst. constructor; [exact E|].
      apply (Forall_impl _ (P := Z.le y)); [intros; lia | exact Hall].
    + apply Z.leb_gt in E. inversion Hs as [|? ? Hs' Hall]; subst.
      constructor; [now apply IH|].
      rewrite insert_sorted_perm. constructor; [lia | exact Hall].
Qed.

Lemma py_sorted_sorted (l : list Z) : StronglySorted Z.le (py_sorted l).
Proof.
  induction l as [|x l IH]; cbn [py_sorted fold_right]; [constructor|].
  now apply insert_sorted_sorted.
Qed.

Lemma sorted_NoDup_strict (l : list Z) :
  StronglySorted Z.le l -> NoDup l -> StronglySorted Z.lt l.
Proof.
  induction 1 as [|x l Hs IH Hall]; intros Hnd; [constructor|].
  inversion Hnd as [|? ? Hx Hnd']; subst. constructor; [now apply IH|].
  rewrite Forall_forall in *. intros y Hy. specialize (Hall y Hy).
  assert (x <> y) by (intros ->; contradiction). lia.
Qed.

Lemma names_at_ok (mv : dict Z (Z * str)) (times : list Z) :
  (forall t, In t times -> dict_get t mv <> None) ->
  exists data, names_at mv times = Return data /\ map fst data = times /\
    forall t nm, In (t, nm) data -> exists c, dict_get t mv = Some (c, nm).
Proof.
  induction times as [|t times IH]; intros Hall; cbn [names_at].
  - exists []. split; [reflexivity|]. split; [reflexivity | intros ? ? []].
  - destruct (dict_get t mv) as [[c nm]|] eqn:E;
      [|now destruct (Hall t (or_introl eq_refl))].
    destruct IH as (data & -> & Hfst & Hin);
      [intros t' Ht'; apply Hall; now right|].
    exists ((t, nm) :: data). split; [reflexivity|].
    split; [cbn [map fst]; now rewrite Hfst|].
    intros t' nm' [Heq|Hin']; [|now apply Hin].
    injection Heq as <- <-. now exists c.
Qed.

Lemma max_map_series (counts : list count_item) :
  exists series, max_map counts = Return series /\
    map fst series = py_sorted (dict_keys (max_values_of counts)) /\
    forall t nm, In (t, nm) series ->
      exists c, dict_get t (max_values_of counts) = Some (c, nm).
Proof.
  unfold max_map. apply names_at_ok. intros t Ht.
  apply (Permutation_in _ (py_sorted_perm _)) in Ht.
  intros Hn. now apply dict_get_none in Hn.
Qed.

(** X12.  The series of the most played maps never fails for want of a
    key; its index is strictly increasing and holds exactly the
    timestamps that occur in the counts, each once. *)
Theorem max_map_index (counts : list count_item) :
  exists series, max_map counts = Return series /\
    StronglySorted Z.lt (map fst series) /\
    forall t, In t (map fst series) <-> exists nm c, In ((nm, t), c) counts.
Proof.
  destruct (max_map_series counts) as (series & Hs & Hfst & _).
  destruct (max_values_inv counts) as [Hnd Hinv].
  exists series. split; [exact Hs|]. rewrite Hfst. split.
  - apply sorted_NoDup_strict; [apply py_sorted_sorted|].
    apply (Permutation_NoDup (l := dict_keys (max_values_of counts)));
      [symmetry; apply py_sorted_perm | exact Hnd].
  - intros t. specialize (Hinv t). split.
    + intros Hin. apply (Permutation_in _ (py_sorted_perm _)) in Hin.
      destruct (dict_get t (max_values_of counts)) as [[c nm]|] eqn:E.
      * destruct Hinv as (l1 & l2 & -> & _). exists nm, c.
        apply in_or_app. right. now left.
      * now apply dict_get_none in E.
    + intros (nm & c & Hin).
      apply (Permutation_in _ (Permutation_sym (py_sorted_perm _))).
      destruct (dict_get t (max_values_of counts)) as [[c' nm']|] eqn:E.
      * destruct (in_dec Z.eq_dec t (dict_keys (max_values_of counts)))
          as [Hk|Hk]; [exact Hk|].
        apply dict_get_none in Hk. congruence.
      * now destruct (Hinv nm c).
Qed.

(** X13.  The map the series names for a timestamp is one that was played
    most in that period: no item for the timestamp has a larger count,
    and among the items with that count it is the first of the
    iteration. *)
Theorem max_map_first_largest (counts : list count_item)
  (series : list (Z * str)) (t : Z) (name : str) :
  max_map counts = Return series ->
  In (t, name) series ->
  exists c, first_largest counts t c name.
Proof.
  intros Hs Hin. destruct (max_map_series counts) as (series' & Hs' & _ & Hall).
  rewrite Hs in Hs'. injection Hs' as <-.
  destruct (Hall t name Hin) as (c & E). exists c.
  pose proof (proj2 (max_values_inv counts) t) as Hinv. now rewrite E in Hinv.
Qed.

Lemma max_map_first_largest_witness :
  exists c,
    first_largest
      [((lit "Oasis", 7%Z), 2%Z); ((lit "Tundra", 7%Z), 5%Z);
       ((lit "Oasis", 3%Z), 1%Z); ((lit "Sirocco", 7%Z), 5%Z)]
      7%Z c (lit "Tundra").
Proof.
  apply (max_map_first_largest
           [((lit "Oasis", 7%Z), 2%Z); ((lit "Tundra", 7%Z), 5%Z);
            ((lit "Oasis", 3%Z), 1%Z); ((lit "Sirocco", 7%Z), 5%Z)]
           [(3%Z, lit "Oasis"); (7%Z, lit "Tundra")] 7%Z (lit "Tundra")).
  - reflexivity.
  - right. left. reflexivity.
Defined.

(** * Renderer versions, once more *)

(** X14.  When a family matcher sets [driver_version], it sets [version]
    too, and the version is found at or before every place where the text
    of the driver version stands in the string: a renderer version is
    never read from behind the driver version. *)
Theorem version_not_after_driver_version (s : str) (f : family)
  (d : OpenGLDescriptor) (dv : str) :
  dispatch s = Some f ->
  GLParser.parse (PyStr s) = Ok d ->
  driver_version d = Some dv ->
  exists v pre post,
    version d = Some v /\ s = pre ++ v ++ post /\
    forall pre' post', s = pre' ++ dv ++ post' -> length pre <= length pre'.
Proof.
  intros Hd Hp Hdv. rewrite parse_dispatch, Hd in Hp. injection Hp as <-.
  rewrite matcher_version.
  destruct (driver_version_shape f s dv Hdv) as [Hnum (pre0 & post0 & Hs)].
  destruct (driver_number_version f dv Hnum) as (v0 & r & Hv0 & Edv).
  destruct (GLParser._opengl_version s) as [v|] eqn:E.
  - apply opengl_version_some in E.
    destruct E as (pre & post & -> & Hv & Hl & Hn).
    exists v, pre, post. split; [reflexivity|]. split; [reflexivity|].
    intros pre' post' E'.
    destruct (app_eq_app _ _ _ _ E') as (l & [[-> El]|[-> El]]).
    + destruct l as [|c l]; [rewrite app_nil_r; lia|]. exfalso.
      apply (Hn pre' (c :: l) v0 eq_refl); [discriminate | exact Hv0|].
      exists (r ++ post'). rewrite <- El, Edv. list_norm. reflexivity.
    + rewrite length_app. lia.
  - exfalso. apply opengl_version_none in E. apply E.
    exists pre0, v0, (r ++ post0). split; [|exact Hv0].
    rewrite Hs, Edv. list_norm. reflexivity.
Qed.

Lemma version_not_after_driver_version_witness :
  exists v pre post,
    version (matcher Mesa (lit "Mesa 21.2.6 (GL 3.3)")) = Some v /\
    lit "Mesa 21.2.6 (GL 3.3)" = pre ++ v ++ post /\
    forall pre' post',
      lit "Mesa 21.2.6 (GL 3.3)" = pre' ++ lit "21.2.6" ++ post' ->
      length pre <= length pre'.
Proof.
  apply (version_not_after_driver_version (lit "Mesa 21.2.6 (GL 3.3)") Mesa
           (matcher Mesa (lit "Mesa 21.2.6 (GL 3.3)")) (lit "21.2.6"));
    reflexivity.
Defined.






Lemma number_chars (d : str) (c : ascii) :
  is_number d -> In c d -> is_digit c = true.
Proof.
  intros [_ Hd] Hin. rewrite forallb_forall in Hd. now apply Hd.
Qed.

Lemma version_text_chars (v : str) (c : ascii) :
  version_text v -> In c v -> is_digit c = true \/ c = "."%char.
Proof.
  intros [(d1 & d2 & H1 & H2 & ->)|(d1 & ? & H1 & (d2 & d3 & H2 & H3 & ->) & ->)] Hin.
  - apply in_app_or in Hin as [Hin|[<-|Hin]];
      [left; now apply (number_chars d1) | now right
      | left; now apply (number_chars d2)].
  - apply in_app_or in Hin as [Hin|[<-|Hin]];
      [left; now apply (number_chars d1) | now right |].
    apply in_app_or in Hin as [Hin|[<-|Hin]];
      [left; now apply (number_chars d2) | now right
      | left; now apply (number_chars d3)].
Qed.

Lemma version_text_no_keyword (v : str) (f : family) :
  version_text v -> ~ substring (keyword f) v.
Proof.
  intros Hv (pre & post & E).
  assert (Hk : exists k t, keyword f = k :: t /\ is_digit k = false /\
                           k <> "."%char).
  { destruct f; eexists; eexists; (split; [reflexivity|]);
      (split; [reflexivity | discriminate]). }
  destruct Hk as (k & t & Ek & Hd & Hdot). rewrite Ek in E.
  destruct (version_text_chars v k Hv) as [H|H]; [|congruence | congruence].
  rewrite E. apply in_or_app. right. now left.
Qed.

Lemma opengl_version_whole (v : str) :
  version_text v -> GLParser._opengl_version v = Some v.
Proof.
  intros Hv. rewrite opengl_version_find_first.
  destruct (reads_longest _ _ reads_version v [] Hv) as (r & E & Hr).
  rewrite app_nil_r in E. destruct r; [|simpl in Hr; lia].
  pose proof (text_between_app v []) as Ht. rewrite app_nil_r in Ht.
  destruct v; cbn [find_first]; rewrite E, Ht; reflexivity.
Qed.

(** X16.  A version [parse] has read from a string is classified, as a
    string of its own, as 'generic' with itself as [version]: reading a
    version twice changes nothing. *)
Theorem reclassify_version (s : str) (d : OpenGLDescriptor) (v : str) :
  GLParser.parse (PyStr s) = Ok d ->
  version d = Some v ->
  GLParser.parse (PyStr v) =
  Ok (mkOpenGLDescriptor (Some v) (Some (lit "generic")) None).
Proof.
  intros Hp Hv. rewrite (parse_str_version s d Hp) in Hv.
  apply opengl_version_some in Hv. destruct Hv as (_ & _ & _ & Hv & _).
  rewrite parse_dispatch.
  assert (Hd : dispatch v = None).
  { apply dispatch_none. intros f. now apply version_text_no_keyword. }
  rewrite Hd, (opengl_version_whole v Hv).
  destruct v; [now apply version_text_nonempty in Hv | reflexivity].
Qed.

Lemma reclassify_version_witness :
  GLParser.parse (PyStr (lit "4.6.0")) =
  Ok (mkOpenGLDescriptor (Some (lit "4.6.0")) (Some (lit "generic")) None).
Proof.
  apply (reclassify_version
           (lit "4.6.0 Compatibility Profile Context 20.3.4.5")
           (matcher Compat (lit "4.6.0 Compatibility Profile Context 20.3.4.5")));
    reflexivity.
Defined.
